(** * Runner composition: Sequence, Group, Once, Go, Start/Ready

    A shallow embedding of package [run] (the two variants of the file that
    defines [Runner], [Sequence], [Group], [Once], [Go], [Idle], and, in the
    later variant, [Start] and [Ready]), of package [onexit] with the script
    it feeds, of package [ports] and of the poller of package [exp].

    Conventions of the embedding.
    - A Go [error] value is an [error] tree; the nil error is [None] of
      [option error].  [==] on errors is structural equality, so two
      [errors.New] calls with one text are not told apart.
    - A call of [Runner.Run] ends by returning an error, by panicking, or
      by ending its goroutine with [runtime.Goexit]: [outcome].  A call that
      never ends produces no outcome at all; where that matters the model
      lets the scheduler simply never pick it.
    - Goroutines meet the orchestrating code only through channels, so the
      concurrent parts are modelled by what is received, in which order:
      a schedule (a list of events) chosen by the environment, over which
      every theorem quantifies. *)

From stdpp Require Import gmap strings list pretty.

(** ** Errors *)

(** [errorString] is what [errors.New] and a [fmt.Errorf] without [%w] build;
    [wrapError] is a [fmt.Errorf] with one [%w], [wrapErrors] one with two. *)
Inductive error : Type :=
| errorString (s : string)
| wrapError (msg : string) (err : error)
| wrapErrors (msg : string) (err1 err2 : error).

#[global] Instance error_eq_dec : EqDecision error.
Proof. solve_decision. Defined.

(** The [Error()] method. *)
Definition Error (e : error) : string :=
  match e with
  | errorString s => s
  | wrapError msg _ => msg
  | wrapErrors msg _ _ => msg
  end.

(** [errors.Is]: the target is the error itself or is reached by unwrapping. *)
Fixpoint Is (err target : error) : bool :=
  if decide (err = target) then true
  else match err with
       | errorString _ => false
       | wrapError _ e => Is e target
       | wrapErrors _ e1 e2 => Is e1 target || Is e2 target
       end.

(** How [fmt] renders a [%w] operand; a nil operand is not wrapped. *)
Definition fmt_w (o : option error) : string :=
  match o with
  | Some e => Error e
  | None => "%!w(<nil>)"
  end.

(** [fmt.Errorf(pre + "%w", o)]. *)
Definition Errorf_w (pre : string) (o : option error) : error :=
  match o with
  | Some e => wrapError (pre +:+ Error e) e
  | None => errorString (pre +:+ fmt_w None)
  end.

(** [fmt.Errorf(pre + "%w" + mid + "%w", e1, o2)], with [e1] not nil. *)
Definition Errorf_ww (pre : string) (e1 : error) (mid : string)
    (o2 : option error) : error :=
  match o2 with
  | Some e2 => wrapErrors (pre +:+ Error e1 +:+ mid +:+ Error e2) e1 e2
  | None => wrapError (pre +:+ Error e1 +:+ mid +:+ fmt_w None) e1
  end.

(** [%s] of a [[]string]: the elements between brackets, separated by spaces. *)
Fixpoint join (sep : string) (l : list string) : string :=
  match l with
  | [] => ""
  | [x] => x
  | x :: l' => x +:+ sep +:+ join sep l'
  end.

Definition fmt_strings (l : list string) : string := "[" +:+ join " " l +:+ "]".

(** [msg] occurs in [s]. *)
Definition contains (s msg : string) : Prop :=
  ∃ pre post, s = pre +:+ msg +:+ post.

Definition ErrExited : error := errorString "runner exited early".
Definition ErrTimeout : error :=
  errorString "one or more runners did not exit in time".

(** ** Contexts *)

(** What [ctx.Err()] can return. *)
Definition Canceled : error := errorString "context canceled".
Definition DeadlineExceeded : error := errorString "context deadline exceeded".

(** The state of a context at the moment it is inspected. *)
Inductive context : Type :=
| Active
| CtxCanceled
| CtxDeadlineExceeded.

Definition Err (ctx : context) : option error :=
  match ctx with
  | Active => None
  | CtxCanceled => Some Canceled
  | CtxDeadlineExceeded => Some DeadlineExceeded
  end.

(** ** Outcomes of a call *)

(** The value given to [panic]: an [error], or any other value, of which only
    its [%v] rendering is ever used. *)
Inductive payload : Type :=
| PError (e : error)
| PValue (v : string).

(** [Goexit]: the call ended its goroutine with [runtime.Goexit] (as
    [testing.T.FailNow] does): the deferred calls run, [recover] returns nil
    in them, and nothing after the call is executed. *)
Inductive outcome : Type :=
| Return (err : option error)
| Panic (p : payload)
| Goexit.

(** [Runner]: [Run] takes the context and acts on the world [W] it shares
    with its callers (counters reached through the context, channels). *)
Definition Runner (C W : Type) : Type := C → W → outcome * W.

(** ** Sequence *)

Module Sequence.
Section Sequence.
Context {C W : Type}.

(** [fmt.Errorf("sequence [%d:%d]: %w", i, len(s)-1, err)], [n] being
    [len(s)]. *)
Definition failure (i n : nat) (err : error) : error :=
  Errorf_w ("sequence [" +:+ pretty i +:+ ":" +:+ pretty (n - 1) +:+ "]: ")
    (Some err).

(** The [for i, r := range s] loop; [n] is [len(s)], [i] the index of the
    head of the remaining members.  The log gets one entry per call of a
    member's [Run]: its index and the context it was given. *)
Fixpoint loop (n i : nat) (s : list (Runner C W)) (ctx : C) (w : W)
    (log : list (nat * C)) : outcome * W * list (nat * C) :=
  match s with
  | [] => (Return None, w, log)
  | r :: s' =>
      let '(o, w') := r ctx w in
      let log' := log ++ [(i, ctx)] in
      match o with
      | Return None => loop n (S i) s' ctx w' log'
      | Return (Some err) => (Return (Some (failure i n err)), w', log')
      | Panic p => (Panic p, w', log')
      | Goexit => (Goexit, w', log')
      end
  end.

Definition Run (s : list (Runner C W)) : C → W → outcome * W * list (nat * C) :=
  λ ctx w, loop (length s) 0 s ctx w [].

(** [Sequence] as a [Runner]. *)
Definition runner (s : list (Runner C W)) : Runner C W :=
  λ ctx w, let '(o, w', _) := Run s ctx w in (o, w').

(** How often member [j] was called. *)
Definition times_run (j : nat) (log : list (nat * C)) : nat :=
  length (filter (λ c, c.1 = j) log).

(** The members of [s], called one after the other from [w], all return nil
    and leave the world [w']: [all_nil s ctx w = Some w']. *)
Fixpoint all_nil (s : list (Runner C W)) (ctx : C) (w : W) : option W :=
  match s with
  | [] => Some w
  | r :: s' => match r ctx w with
               | (Return None, w') => all_nil s' ctx w'
               | _ => None
               end
  end.

(** Calls of the members [i], [i+1], ..., [i+k-1], each with [ctx]. *)
Definition in_order (ctx : C) (i k : nat) : list (nat * C) := (λ j, (j, ctx)) <$> seq i k.

End Sequence.
End Sequence.


(** ** Goroutines, [defer] and [recover] *)

(** What a goroutine has done when its function body ends, by a return, a
    panic or [runtime.Goexit]: the messages it has sent, and the panic it is
    unwinding with, if any. *)
Record exec (M : Type) : Type := Exec { sent : list M; panicking : option payload }.
Arguments Exec {M} _ _.
Arguments sent {M} _.
Arguments panicking {M} _.

(** [defer func() { if r := recover(); r != nil { handler(r) } }()] around
    [body]: without a panic [recover] returns nil and the handler is skipped;
    with one, the panic stops there and the handler's sends follow. *)
Definition defer_recover {M : Type} (handler : payload → list M)
    (body : exec M) : exec M :=
  match panicking body with
  | None => body
  | Some p => Exec (sent body ++ handler p) None
  end.

(** A panic that leaves a goroutine's function ends the whole process. *)
Definition crashes {M : Type} (e : exec M) : Prop := panicking e ≠ None.

(** ** Group *)

Module Group.

Record groupErr : Type := GroupErr { runner : string; err : option error }.

#[global] Instance groupErr_eq_dec : EqDecision groupErr.
Proof. solve_decision. Defined.

(** The body of a member's goroutine: [err := r.Run(ctx)] and, when that
    returns, the send on [errs]. *)
Definition member_body (name : string) (o : outcome) : exec groupErr :=
  match o with
  | Return e => Exec [GroupErr name e] None
  | Panic p => Exec [] (Some p)
  | Goexit => Exec [] None
  end.

(** The deferred function's work on a recovered value. *)
Definition member_recover (name : string) (p : payload) : list groupErr :=
  let e := match p with
           | PError e => Errorf_w "run.Group recover: " (Some e)
           | PValue v => errorString ("run.Group recover: " +:+ v)
           end in
  [GroupErr name (Some e)].

(** The goroutine launched for member [name], whose [Run] ends with [o]. *)
Definition member (name : string) (o : outcome) : exec groupErr :=
  defer_recover (member_recover name) (member_body name o).

(** What the [select] of one iteration can be offered by its environment:
    a value is ready on [errs], or the channel of [time.After] delivers.
    Go ranges over a map in an order of its own choosing, a new one each
    time; [order] is the order in which the range over [exited] yields its
    keys if this is the event that takes the timeout branch. *)
Inductive event : Type :=
| Report (gerr : groupErr)
| Fire (order : list string).

(** What the orchestrator does, in order. *)
Inductive effect : Type :=
| Received (name : string)
| CauseSet (c : error)
| Cancel
| After
| Result (r : option error).

#[global] Instance effect_eq_dec : EqDecision effect.
Proof. solve_decision. Defined.

Record state : Type := State {
  exited : gmap string bool;
  cause : option error;
  exitTimeout : bool;          (* false: the nil channel *)
  cancelled : bool;            (* the derived context is done *)
  trace : list effect
}.

Definition emit (e : effect) (st : state) : state :=
  State (exited st) (cause st) (exitTimeout st) (cancelled st) (trace st ++ [e]).

Definition mark (name : string) (st : state) : state :=
  emit (Received name)
    (State (<[name := true]> (exited st)) (cause st) (exitTimeout st)
       (cancelled st) (trace st)).

Definition set_cause (c : error) (st : state) : state :=
  emit (CauseSet c)
    (State (exited st) (Some c) (exitTimeout st) (cancelled st) (trace st)).

Definition cancel (st : state) : state :=
  emit Cancel
    (State (exited st) (cause st) (exitTimeout st) true (trace st)).

Definition arm (st : state) : state :=
  emit After
    (State (exited st) (cause st) true (cancelled st) (trace st)).

Definition name_wrap (name : string) (e : error) : error :=
  Errorf_w ("run.Group[" +:+ name +:+ "]: ") (Some e).

(** The [case gerr := <-errs] branch. *)
Definition receive (cancelOnExit : bool) (gerr : groupErr) (st : state) : state :=
  let st := mark (runner gerr) st in
  let st := match cause st, err gerr with
            | None, Some e => set_cause (name_wrap (runner gerr) e) st
            | _, _ => st
            end in
  let st := match err gerr, cancelOnExit, cause st with
            | None, true, None => set_cause (name_wrap (runner gerr) ErrExited) st
            | _, _, _ => st
            end in
  match cause st with
  | Some _ => arm (cancel st)
  | None => st
  end.

(** [order] is an order in which a range over a map with the keys of [g]
    can yield them: each key once. *)
Definition ranges {A : Type} (g : gmap string A) (order : list string) : Prop :=
  NoDup order ∧ ∀ name, name ∈ order ↔ name ∈ dom g.

(** [running]: the names whose entry in [exited] is false, appended in the
    order [order] in which the range yields the keys. *)
Definition running (order : list string) (ex : gmap string bool) : list string :=
  filter (λ name, ex !! name = Some false) order.

(** The error of the [case <-exitTimeout] branch. *)
Definition timeout_error (order : list string) (st : state) : error :=
  Errorf_ww (fmt_strings (running order (exited st)) +:+ ": ") ErrTimeout
    ": shutdown cause: " (cause st).

Inductive loop_end : Type :=
| Completed (st : state)               (* the [for range g] loop ran out *)
| TimedOut (order : list string) (st : state)   (* the timeout branch returned *)
| Waiting (st : state).                (* [select] never gets another event *)

(** [for range g { select { ... } }] with [n] iterations left.  A [Fire]
    offered while [exitTimeout] is the nil channel is not a ready case:
    the [select] goes on waiting. *)
Fixpoint loop (cancelOnExit : bool) (n : nat) (st : state)
    (evs : list event) {struct evs} : loop_end :=
  match n with
  | 0 => Completed st
  | S n' =>
      match evs with
      | [] => Waiting st
      | Report gerr :: evs' => loop cancelOnExit n' (receive cancelOnExit gerr st) evs'
      | Fire order :: evs' =>
          if exitTimeout st then TimedOut order st
          else loop cancelOnExit n st evs'
      end
  end.

Definition end_state (l : loop_end) : state :=
  match l with
  | Completed st | TimedOut _ st | Waiting st => st
  end.

(** The state before the loop: every key of [g] is marked not exited. *)
Definition init {R : Type} (g : gmap string R) : state :=
  State ((λ _, false) <$> g) None false false [].

Inductive result : Type :=
| Returns (r : option error) (st : state)
| Blocks (st : state).

(** [return r] under [defer cancel()]. *)
Definition return_ (r : option error) (st : state) : result :=
  Returns r (cancel (emit (Result r) st)).

(** The value returned, if the call returns. *)
Definition returned (res : result) : option (option error) :=
  match res with
  | Returns r _ => Some r
  | Blocks _ => None
  end.

Definition final (res : result) : state :=
  match res with
  | Returns _ st => st
  | Blocks st => st
  end.

(** The state after the reports [gerrs] have been received, in that order. *)
Definition received (cancelOnExit : bool) (gerrs : list groupErr) (st : state) : state :=
  foldl (λ st gerr, receive cancelOnExit gerr st) st gerrs.

(** The error [x] carries the panic value: it wraps it when it is an error,
    and shows its rendering otherwise. *)
Definition carries (x : error) (p : payload) : Prop :=
  match p with
  | PError e => Is x e = true
  | PValue v => contains (Error x) v
  end.

(** The timer is armed, and the context cancelled, exactly when there is a
    cause. *)
Definition armed_iff_cause (st : state) : Prop :=
  exitTimeout st = bool_decide (cause st ≠ None)
  ∧ cancelled st = bool_decide (cause st ≠ None).

(** A cause has been recorded somewhere in [tr]. *)
Definition caused (tr : list effect) : Prop := ∃ c, CauseSet c ∈ tr.

(** Every [cancel()] in [tr] comes after a cause has been recorded. *)
Definition cancel_only_after_cause (tr : list effect) : Prop :=
  ∀ pre post, tr = pre ++ Cancel :: post → caused pre.

(** What holds of the trace all through the loop. *)
Definition ordered (st : state) : Prop :=
  cancel_only_after_cause (trace st)
  ∧ (cause st ≠ None → caused (trace st)).

(** Every report comes from a member, and no member reports twice. *)
Definition reports (evs : list event) : list string :=
  omap (λ ev, match ev with Report gerr => Some (runner gerr) | Fire _ => None end) evs.

Definition well_formed {R : Type} (g : gmap string R) (evs : list event) : Prop :=
  NoDup (reports evs) ∧ ∀ name, name ∈ reports evs → name ∈ dom g.

End Group.

(** [Group.run] of the earlier variant of the file. *)
Module Part_001.
Import Group.

Definition run {R : Type} (g : gmap string R) (cancelOnExit : bool)
    (evs : list event) : result :=
  match loop cancelOnExit (size g) (init g) evs with
  | TimedOut order st => return_ (Some (timeout_error order st)) st
  | Completed st => return_ (cause st) st
  | Waiting st => Blocks st
  end.
End Part_001.

(** [Group.run] of the later variant: [inCtx] is the caller's context as it
  is when [inCtx.Err()] is read after the loop. *)
Module Part_002.
Import Group.

Definition run {R : Type} (inCtx : context) (g : gmap string R)
    (cancelOnExit : bool) (evs : list event) : result :=
  match loop cancelOnExit (size g) (init g) evs with
  | TimedOut order st => return_ (Some (timeout_error order st)) st
  | Completed st =>
      if decide (Err inCtx = Some Canceled) then return_ None st
      else return_ (cause st) st
  | Waiting st => Blocks st
  end.

(** [Group.Run] and [Group.WithoutCancel]. *)
Definition Run {R : Type} (inCtx : context) (g : gmap string R) :=
  run inCtx g true.
Definition WithoutCancel {R : Type} (inCtx : context) (g : gmap string R) :=
  run inCtx g false.
End Part_002.


(** ** The result channel of a Group invocation *)

Module Chan.
Section Chan.
Context {M : Type}.

(** A buffered channel: what is in the buffer, and [cap]. *)
Record chan : Type := Chan { buf : list M; cap : nat }.

(** [make(chan M, n)]. *)
Definition make (n : nat) : chan := Chan [] n.

(** [c <- m] with nobody receiving: [None] when the buffer is full, which is
    when the sender has to wait. *)
Definition send (m : M) (c : chan) : option chan :=
  if decide (length (buf c) < cap c) then Some (Chan (buf c ++ [m]) (cap c))
  else None.

(** [<-c]: [None] when there is nothing to take yet. *)
Definition recv (c : chan) : option (M * chan) :=
  match buf c with
  | [] => None
  | m :: b => Some (m, Chan b (cap c))
  end.

(** Sending several messages in a row. *)
Fixpoint send_all (ms : list M) (c : chan) : option chan :=
  match ms with
  | [] => Some c
  | m :: ms' => match send m c with
                | Some c' => send_all ms' c'
                | None => None
                end
  end.
End Chan.
Arguments chan : clear implicits.
End Chan.

(** The members' goroutines and the receiving end of [errs], interleaved. *)
Module Launch.
Import Group.

Record system : Type := System {
  errs : Chan.chan groupErr;
  live : gmap string outcome;      (* launched, its goroutine not yet ended *)
  taken : list groupErr            (* received from [errs] so far *)
}.

(** [outs] tells how the [Run] of each member ends; a member without an entry
    never ends.  [errs] is [make(chan groupErr, len(g)+1)]. *)
Definition launch {R : Type} (g : gmap string R) (outs : gmap string outcome) : system :=
  System (Chan.make (size g + 1)) (filter (λ kv, kv.1 ∈ dom g) outs) [].

Inductive action : Type :=
| Finish (name : string)      (* the goroutine of [name] runs to its end *)
| Take.                       (* somebody receives from [errs] *)

#[global] Instance action_eq_dec : EqDecision action.
Proof. solve_decision. Defined.

Inductive status : Type :=
| Going (s : system)
| SendBlocked (name : string) (s : system).

Definition step (s : system) (a : action) : status :=
  match a with
  | Finish name =>
      match live s !! name with
      | None => Going s
      | Some o =>
          match Chan.send_all (sent (member name o)) (errs s) with
          | Some c => Going (System c (delete name (live s)) (taken s))
          | None => SendBlocked name s
          end
      end
  | Take =>
      match Chan.recv (errs s) with
      | None => Going s
      | Some (m, c) => Going (System c (live s) (taken s ++ [m]))
      end
  end.

Fixpoint steps (s : system) (acts : list action) : status :=
  match acts with
  | [] => Going s
  | a :: acts' => match step s a with
                  | Going s' => steps s' acts'
                  | SendBlocked name s' => SendBlocked name s'
                  end
  end.

(** The reports of [name] that have left its goroutine. *)
Definition reports_of (name : string) (s : system) : list groupErr :=
  filter (λ m, runner m = name) (taken s ++ Chan.buf (errs s)).

(** The members whose goroutine [acts] has run to its end. *)
Definition finished (acts : list action) : list string :=
  omap (λ a, match a with Finish name => Some name | Take => None end) acts.

(** What holds of the system at every moment, [fin] being the members whose
    goroutine has been run to its end: the buffer has room for every
    goroutine still alive, a member is alive until then and has reported
    nothing, and one whose goroutine has ended has sent just what that
    goroutine sends. *)
Definition invariant {R : Type} (g : gmap string R) (outs : gmap string outcome)
    (fin : list string) (s : system) : Prop :=
  Chan.cap (errs s) = size g + 1
  ∧ length (Chan.buf (errs s)) + size (live s) ≤ size g
  ∧ ∀ name,
      live s !! name =
        (if decide (name ∈ fin) then None else live (launch g outs) !! name)
      ∧ reports_of name s =
          if decide (name ∈ fin) then
            match live (launch g outs) !! name with
            | Some o => sent (member name o)
            | None => []
            end
          else [].
End Launch.

(** ** Go *)

Module Detached.

(** The goroutine of [Go]: [res <- r.Run(ctx)] under the deferred recovery. *)
Definition body (o : outcome) : exec (option error) :=
  match o with
  | Return e => Exec [e] None
  | Panic p => Exec [] (Some p)
  | Goexit => Exec [] None
  end.

Definition recovered (p : payload) : list (option error) :=
  match p with
  | PError e => [Some (Errorf_w "run.Go recover: " (Some e))]
  | PValue v => [Some (errorString ("run.Go recover: " +:+ v))]
  end.

Definition Go (o : outcome) : exec (option error) :=
  defer_recover recovered (body o).
End Detached.

(** ** Once *)

Module Once.
Section Once.
Context {C W : Type}.
Variable r : Runner C W.

(** The [sync.Once] and the captured [err], with the world of [r]; [runs]
    counts the calls of [r.Run]. *)
Record cell : Type := Cell { done : bool; err : option error; world : W; runs : nat }.

(** [Once(r)]. *)
Definition new (w : W) : cell := Cell false None w 0.

(** One call of the returned [Func], alone.  [once.Do(f)] calls [f] only when
    the [sync.Once] is not done, and it is done afterwards even when [f]
    panics or ends the goroutine; the panic, or the end of the goroutine,
    then goes on to the caller and [err] was not assigned. *)
Definition Run (ctx : C) (c : cell) : outcome * cell :=
  if done c then (Return (err c), c)
  else
    let '(o, w') := r ctx (world c) in
    match o with
    | Return e => (Return e, Cell true e w' (S (runs c)))
    | Panic p => (Panic p, Cell true (err c) w' (S (runs c)))
    | Goexit => (Goexit, Cell true (err c) w' (S (runs c)))
    end.

(** Calls one after the other, one per context in [ctxs]. *)
Fixpoint invoke (ctxs : list C) (c : cell) : list outcome * cell :=
  match ctxs with
  | [] => ([], c)
  | ctx :: ctxs' =>
      let '(o, c') := Run ctx c in
      let '(os, c'') := invoke ctxs' c' in
      (o :: os, c'')
  end.

(** Concurrent callers.  Where a caller stands: *)
Inductive pc : Type :=
| Entry (ctx : C)        (* about to read the done flag, outside the lock *)
| Locking (ctx : C)      (* saw it unset; waits for the mutex *)
| InDo (ctx : C)         (* holds the mutex, [r.Run(ctx)] is running *)
| Left (o : outcome).    (* its call has ended with [o] *)

Record shared : Type := Shared {
  sdone : bool;
  locked : bool;
  serr : option error;
  sworld : W;
  sruns : nat;
  first : option outcome        (* how the call of [r.Run] ended *)
}.

Definition start (w : W) : shared := Shared false false None w 0 None.

(** Caller [tid] takes its next step; a caller that waits for a held mutex,
    or has left, stays where it is. *)
Definition step (st : list pc * shared) (tid : nat) : list pc * shared :=
  let '(pcs, s) := st in
  match pcs !! tid with
  | Some (Entry ctx) =>
      if sdone s then (<[tid := Left (Return (serr s))]> pcs, s)
      else (<[tid := Locking ctx]> pcs, s)
  | Some (Locking ctx) =>
      if locked s then st
      else if sdone s then (<[tid := Left (Return (serr s))]> pcs, s)
      else (<[tid := InDo ctx]> pcs,
            Shared (sdone s) true (serr s) (sworld s) (sruns s) (first s))
  | Some (InDo ctx) =>
      let '(o, w') := r ctx (sworld s) in
      match o with
      | Return e =>
          (<[tid := Left (Return e)]> pcs,
           Shared true false e w' (S (sruns s)) (Some o))
      | Panic p =>
          (<[tid := Left (Panic p)]> pcs,
           Shared true false (serr s) w' (S (sruns s)) (Some o))
      | Goexit =>
          (<[tid := Left Goexit]> pcs,
           Shared true false (serr s) w' (S (sruns s)) (Some o))
      end
  | Some (Left _) | None => st
  end.

Definition schedule (st : list pc * shared) (tids : list nat) : list pc * shared :=
  foldl step st tids.

Definition callers (ctxs : list C) (w : W) : list pc * shared :=
  (Entry <$> ctxs, start w).

Definition has_left (p : pc) : bool :=
  match p with Left _ => true | _ => false end.

Definition in_do (p : pc) : bool :=
  match p with InDo _ => true | _ => false end.

(** What [err] holds after a call of [r.Run] that ended with [o]. *)
Definition assigned (o : outcome) : option error :=
  match o with
  | Return e => e
  | Panic _ | Goexit => None
  end.

(** What holds of the callers and the shared cell at every moment. *)
Definition invariant (st : list pc * shared) : Prop :=
  let '(pcs, s) := st in
  length (filter (λ p, in_do p = true) pcs) = (if locked s then 1 else 0)
  ∧ (locked s = true → sdone s = false)
  ∧ sruns s = (if sdone s then 1 else 0)
  ∧ (sdone s = false → first s = None ∧ serr s = None)
  ∧ (sdone s = true → ∃ o, first s = Some o ∧ assigned o = serr s)
  ∧ (∀ tid o, pcs !! tid = Some (Left o) →
       sdone s = true ∧ (o = Return (serr s) ∨ first s = Some o)).

(** How many steps a caller has before it. *)
Definition ahead (p : pc) : nat :=
  match p with
  | Entry _ => 3
  | Locking _ => 2
  | InDo _ => 1
  | Left _ => 0
  end.

Definition work (pcs : list pc) : nat := sum_list (ahead <$> pcs).

(** The context a caller that has not left called with. *)
Definition ctx_of (p : pc) : option C :=
  match p with
  | Entry ctx | Locking ctx | InDo ctx => Some ctx
  | Left _ => None
  end.

(** Where the recorded outcome comes from: a call of [r.Run], in the world
    [w] the callers started from, with the context of one of them. *)
Definition provenance (ctxs : list C) (w : W) (st : list pc * shared) : Prop :=
  let '(pcs, s) := st in
  (∀ tid p ctx, pcs !! tid = Some p → ctx_of p = Some ctx → ctx ∈ ctxs)
  ∧ (sdone s = false → sworld s = w)
  ∧ (∀ o, first s = Some o → ∃ ctx, ctx ∈ ctxs ∧ o = (r ctx w).1).
End Once.
Arguments cell : clear implicits.
Arguments pc : clear implicits.
Arguments shared : clear implicits.
End Once.

(** ** Start and Ready *)

(** A call either returns or never does. *)
Inductive call (A : Type) : Type :=
| Ret (a : A)
| Hang.
Arguments Ret {A} _.
Arguments Hang {A}.

Module Starting.

(** What the members of the Ready group act on: the state of the Group's
    derived context as time passes, and what has been sent on [readych]. *)
Record world : Type := World { now : context; readych : list (option error) }.

(** [runner] and [ready] are given the context only. *)
Definition lift (r : Runner unit context) : Runner unit world :=
  λ _ w, let '(o, c) := r tt (now w) in (o, World c (readych w)).

(** [Func(func(ctx) error { readych <- ctx.Err(); return nil })]. *)
Definition publish : Runner unit world :=
  λ _ w, (Return None, World (now w) (readych w ++ [Err (now w)])).

(** [Idle] returns nil, once the context is done. *)
Definition Idle : Runner unit world := λ _ w, (Return None, w).

(** The member "ready" of [Ready]. *)
Definition ready_sequence (ready : Runner unit context) : list (Runner unit world) :=
  [lift ready; publish; Idle].

Definition Ready (runner ready : Runner unit context) : gmap string (Runner unit world) :=
  <["runner" := lift runner]>
    (<["ready" := Sequence.runner (ready_sequence ready)]> ∅).

(** What [<-done] yields: [Go] sends what the Group's [Run] returns; nothing
    comes when that call does not return. *)
Definition from_done (res : Group.result) : call (option error) :=
  match Group.returned res with
  | Some r => match sent (Detached.Go (Return r)) with
              | m :: _ => Ret m
              | [] => Hang
              end
  | None => Hang
  end.

(** The closure returned on readiness. *)
Definition stop (res : Group.result) : unit → call (option error) :=
  λ _, match from_done res with
       | Ret (Some e) =>
           Ret (Some (Errorf_w "run.Start: runner shutdown with error: " (Some e)))
       | Ret None => Ret None
       | Hang => Hang
       end.

(** [Start].  [now0] is the state of the derived context when the members
    start, [inCtx] its state when the Group reads it after its loop, [evs]
    what the Group's loop is offered; the calls of [cancel()] act on the
    members only through these.  [err = <-readych] takes the first value sent
    on [readych]; [readych] is closed only when [Start] returns. *)
Definition Start (inCtx now0 : context) (runner ready : Runner unit context)
    (evs : list Group.event)
    : call (option error * option (unit → call (option error))) :=
  let '(_, w, _) := Sequence.Run (ready_sequence ready) tt (World now0 []) in
  let res := Part_002.Run inCtx (Ready runner ready) evs in
  match readych w with
  | [] => Hang
  | Some _ :: _ =>
      match from_done res with
      | Ret d => Ret (Some (Errorf_w "runner not ready: " d), None)
      | Hang => Hang
      end
  | None :: _ => Ret (None, Some (stop res))
  end.
End Starting.


(** ** onexit: the Killer and its script *)

Module Onexit.
Import Stdlib.Strings.Ascii.

(** *** The Go side *)

(** [%d] and [%v] of an integer. *)
Definition fmt_int (z : Z) : string := pretty z.

(** An [int64] after an addition. *)
Definition wrap64 (z : Z) : Z := ((z + 2 ^ 63) `mod` 2 ^ 64 - 2 ^ 63)%Z.

Inductive operation : Type := opExit | opCancel.

Definition op_string (op : operation) : string :=
  match op with
  | opExit => "exit"
  | opCancel => "cancel"
  end.

Definition newline : ascii := "010"%char.

(** A [Killer]: what has been written to the write end [w] of the pipe,
    whether [w] has been closed, and [seq].  Of how a write can fail only the
    closed file is modelled. *)
Record Killer : Type := MkKiller { written : string; closed : bool; seq : Z }.

(** The error of an operation on a closed [*os.File]. *)
Definition ErrClosed (op : string) : error :=
  wrapError (op +:+ " |1: file already closed") (errorString "file already closed").

(** [send]: one [fmt.Fprintf(k.w, "%s:%v\n", op, data)], [data] already
    rendered by [%v]. *)
Definition send (op : operation) (data : string) (k : Killer) : option error * Killer :=
  if closed k then (Some (ErrClosed "write"), k)
  else (None, MkKiller (written k +:+ op_string op +:+ ":" +:+ data +:+ String newline "")
                (closed k) (seq k)).

(** [dequeue], which is what the returned [cancel] function calls with the
    [seq] it has captured. *)
Definition dequeue (s : Z) (k : Killer) : option error * Killer :=
  send opCancel (fmt_int s) k.

(** [queue]: the sequence number is taken before the send, and returned in
    the [cancel] function only when the send succeeded. *)
Definition queue (command : string) (k : Killer) : (option Z * option error) * Killer :=
  let s := wrap64 (seq k + 1) in
  let k := MkKiller (written k) (closed k) s in
  match send opExit command k with
  | (Some err, k) => ((None, Some (Errorf_w "onexit: failed to queue: " (Some err))), k)
  | (None, k) => ((Some s, None), k)
  end.

Definition OnExit (command : string) (k : Killer) := queue command k.

Definition Close (k : Killer) : option error * Killer :=
  if closed k then (Some (ErrClosed "close"), k)
  else (None, MkKiller (written k) true (seq k)).

(** [NewKiller]: an open pipe with nothing written, [seq] stored as -1. *)
Definition NewKiller : Killer := MkKiller "" false (-1).

(** Killers are used through pointers; [DefaultKiller] is the one the
    package-level functions use. *)
Definition DefaultKiller : nat := 0.

Definition at_ {A : Type} (p : nat) (f : Killer → A * Killer) (h : gmap nat Killer)
    : option A * gmap nat Killer :=
  match h !! p with
  | Some k => let '(a, k') := f k in (Some a, <[p := k']> h)
  | None => (None, h)                       (* a nil pointer: not modelled *)
  end.

(** The package-level [OnExitF], its format already applied. *)
Definition OnExitF (formatted : string) (h : gmap nat Killer) :=
  at_ DefaultKiller (OnExit formatted) h.

(** [(k *Killer).Kill]: [quoted] is [shellescape.Quote(desc)].  The method
    calls the package-level [OnExitF]. *)
Definition Kill (k : nat) (quoted : string) (pid : Z) (sig : list Z)
    (h : gmap nat Killer) :=
  let signal := match sig with
                | s :: _ => s
                | [] => 2%Z                 (* syscall.SIGINT *)
                end in
  OnExitF ("echo killing " +:+ quoted +:+ "; kill -" +:+ fmt_int signal
           +:+ " " +:+ fmt_int pid) h.

(** *** The script *)

(** The lines that [read] delivers: those ended by a newline; what follows
    the last newline is not processed. *)
Fixpoint read_lines (cur s : string) : list string :=
  match s with
  | "" => []
  | String c s' =>
      if decide (c = newline) then cur :: read_lines "" s'
      else read_lines (cur +:+ String c "") s'
  end.

(** [read -r cmd] removes blanks at both ends of the line. *)
Definition blank (c : ascii) : bool :=
  bool_decide (c = " "%char) || bool_decide (c = "009"%char).

Fixpoint ltrim (s : string) : string :=
  match s with
  | "" => ""
  | String c s' => if blank c then ltrim s' else s
  end.

Fixpoint rtrim (s : string) : string :=
  match s with
  | "" => ""
  | String c s' =>
      match rtrim s' with
      | "" => if blank c then "" else String c ""
      | t => String c t
      end
  end.

Definition trim (s : string) : string := rtrim (ltrim s).

(** [s] without the prefix [p], when it starts with it. *)
Fixpoint strip_prefix (p s : string) : option string :=
  match p, s with
  | "", _ => Some s
  | String a p', String b s' => if decide (a = b) then strip_prefix p' s' else None
  | String _ _, "" => None
  end.

Fixpoint parse_digits (acc : N) (s : string) : option N :=
  match s with
  | "" => Some acc
  | String c s' =>
      match Ascii.is_nat c with
      | Some d => parse_digits (acc * 10 + N.of_nat d) s'
      | None => None
      end
  end.

(** The subscript [$i] as the shell evaluates it, for a decimal numeral
    without sign; anything else (an empty word, a leading zero, which makes
    it octal, a name, a negative number) is not modelled: [None]. *)
Definition subscript (s : string) : option nat :=
  match s with
  | "" => None
  | String "0" "" => Some 0
  | String "0" _ => None
  | _ => N.to_nat <$> parse_digits 0 s
  end.

(** The array [cmds]: an entry per index up to the highest one in use,
    [None] where nothing was assigned. *)
Definition assign (i : nat) (v : string) (cmds : list (option string))
    : list (option string) :=
  if decide (i < length cmds) then <[i := Some v]> cmds
  else cmds ++ replicate (i - length cmds) None ++ [Some v].

(** The body of the [while read] loop on one line; [None] when the
    subscript is one the model does not cover. *)
Definition process (cmds : list (option string)) (line : string)
    : option (list (option string)) :=
  let cmd := trim line in
  match strip_prefix "exit:" cmd with
  | Some command => Some (cmds ++ [Some command])
  | None =>
      match strip_prefix "cancel:" cmd with
      | Some i => (λ i, assign i "" cmds) <$> subscript i
      | None => Some cmds
      end
  end.

Fixpoint process_all (cmds : list (option string)) (lines : list string)
    : option (list (option string)) :=
  match lines with
  | [] => Some cmds
  | l :: lines' =>
      match process cmds l with
      | Some cmds' => process_all cmds' lines'
      | None => None
      end
  end.

Section Eval.
(** [eval "$cmd"] runs the command in the shell of the script itself, which
    the model does not look into: [eval c sh] is the shell after the command
    [c] was evaluated in the shell [sh], and [None] when the loop does not go
    on after it, because the command ended the shell ([exit], [exec]), left
    the loop ([break], [return]), never ended, or changed what the words of
    the loop mean. *)
Context {shell : Type}.
Variable eval : string → shell → option shell.

(** The final loop over the elements of [cmds] that are set: the commands
    given to [eval], in order.  An empty one is skipped. *)
Fixpoint run_commands (sh : shell) (cmds : list string) : list string :=
  match cmds with
  | [] => []
  | c :: cmds' =>
      if decide (c = "") then run_commands sh cmds'
      else c :: match eval c sh with
                | Some sh' => run_commands sh' cmds'
                | None => []
                end
  end.

Definition evaluated (sh : shell) (cmds : list (option string)) : list string :=
  run_commands sh (omap id cmds).

(** The script, started in the shell [sh], on all that was written to its
    standard input before it was closed: the commands it gives to [eval]. *)
Definition script (sh : shell) (input : string) : option (list string) :=
  evaluated sh <$> process_all [] (read_lines "" input).
End Eval.

(** *** A program using one Killer *)

(** A call of [OnExit], or of the [cancel] function that the [n]-th
    successful [OnExit] returned. *)
Inductive call : Type :=
| CallOnExit (command : string)
| CallCancel (n : nat).

Definition exec (st : Killer * list Z) (c : call) : Killer * list Z :=
  let '(k, cancels) := st in
  match c with
  | CallOnExit command =>
      match queue command k with
      | ((Some s, _), k') => (k', cancels ++ [s])
      | ((None, _), k') => (k', cancels)
      end
  | CallCancel n =>
      match cancels !! n with
      | Some s => ((dequeue s k).2, cancels)
      | None => st
      end
  end.

Definition run (calls : list call) : Killer * list Z :=
  foldl exec (NewKiller, []) calls.





(** The text made of the lines [ls], each ended by a newline. *)
Definition unlines (ls : list string) : string :=
  foldr (λ l acc, l +:+ String newline acc) "" ls.

(** The line that [send] writes, without its newline. *)
Definition line (op : operation) (data : string) : string :=
  op_string op +:+ ":" +:+ data.

End Onexit.


(** ** ports: a free local port *)

Module Ports.
Local Open Scope Z_scope.

Definition portBase : Z := 8192.                        (* 0x2000 *)
Definition portCount : Z := 32768 - portBase.           (* 0x8000 - portBase *)

(** A [uint64] after an addition. *)
Definition uint64 (z : Z) : Z := z `mod` 2 ^ 64.

(** The inner loop of [portStep]: some [i] from 2 to [n/2] divides [n]. *)
Definition divisible (n : Z) : bool :=
  existsb (λ i, bool_decide (n `mod` i = 0)) (seqZ 2 (n `div` 2 - 1)).

(** [portStep]: [rands] is what the successive calls of [rand.Uint64] give;
    [None] when the loop is still running after all of them. *)
Fixpoint portStep (rands : list Z) : option Z :=
  match rands with
  | [] => None
  | r :: rands' =>
      let n := Z.lor (r `mod` portCount) 1 in
      if divisible n then portStep rands' else Some n
  end.

Definition localhost (port : Z) : string := "127.0.0.1:" +:+ pretty port.

(** One call of [Random]: what it returns, [lastPortOffset] when it
    returns, and the ports it dialled, in order. *)
Record run : Type :=
  Run { result : string * option error; offset : Z; dialled : list Z }.

Section Random.
(** [portStep], and what [DialContext] gives for the [i]-th dial of the call
    when it is to [port]: [None] for a connection, which is closed at once. *)
Variable step : Z.
Variable dial : nat → Z → option error.

(** The [for range portCount] loop with [n] rounds to go, [i] dials made and
    [lastPortOffset] at [off]. *)
Fixpoint attempts (n i : nat) (off : Z) : run :=
  match n with
  | O => Run ("", Some (errorString "no ports available")) off []
  | S n' =>
      let off' := uint64 (off + step) in
      let port := portBase + off' `mod` portCount in
      match dial i port with
      | Some err =>
          if decide (err = Canceled) then Run ("", Some err) off' [port]
          else Run (localhost port, None) off' [port]
      | None =>
          let r := attempts n' (S i) off' in
          Run (result r) (offset r) (port :: dialled r)
      end
  end.

Definition Random (off : Z) : run := attempts (Z.to_nat portCount) 0 off.
End Random.

(** The port of the [j]-th dial of a call that starts with [lastPortOffset]
    at [off], when the counter does not wrap. *)
Definition nth_port (step off : Z) (j : nat) : Z :=
  portBase + (off + (Z.of_nat j + 1) * step) `mod` portCount.
End Ports.


(** ** exp: an HTTP server and its poller *)

Module Exp.
Import Stdlib.Strings.Ascii.
Local Open Scope Z_scope.

(** A [time.Duration] is an [int64] of nanoseconds. *)
Definition int64 (z : Z) : Z := (z + 2 ^ 63) `mod` 2 ^ 64 - 2 ^ 63.

Definition Millisecond : Z := 1000000.
Definition Second : Z := 1000 * Millisecond.

Definition pollInitial : Z := 10 * Millisecond.
Definition pollMax : Z := 1 * Second.

Record exponentialBackoff : Type := Backoff_ { max : Z; next : Z }.

(** [Backoff]: the delay to wait now, and [b] as it is left. *)
Definition Backoff (b : exponentialBackoff) : Z * exponentialBackoff :=
  let curr := next b in
  (curr, Backoff_ (max b) (Z.min (int64 (2 * next b)) (max b))).

(** The first [n] delays that [b] gives. *)
Fixpoint delays (n : nat) (b : exponentialBackoff) : list Z :=
  match n with
  | O => []
  | S n' => let '(d, b') := Backoff b in d :: delays n' b'
  end.

(** What one [pokeHTTP] meets on the network: the dial fails, the write of
    the request fails, [io.ReadAtLeast] fails, or it has read [data], no less
    than 20 bytes and no more than the buffer holds. *)
Inductive exchange : Type :=
| DialFails (err : error)
| WriteFails (err : error)
| ReadFails (err : error)
| Responds (data : string).

Definition badGatewayPrefix : string := "502 Bad Gateway ".
Definition gatewayTimeoutPrefix : string := "504 Gateway Timeout ".

Definition CRLF : string := String "013" (String "010" "").

(** [fmt.Fprintf(conn, "OPTIONS * HTTP/1.1\r\nHost: %s\r\n\r\n", host)]. *)
Definition request (host : string) : string :=
  "OPTIONS * HTTP/1.1" +:+ CRLF +:+ "Host: " +:+ host +:+ CRLF +:+ CRLF.

(** [var buf [32]byte] after [data] was read into it. *)
Definition buf (data : string) : string :=
  String.substring 0 32 (data +:+ String.string_of_list_ascii (replicate 32 zero)).

(** [p[:len(p)-1]]. *)
Definition but_last (p : string) : string :=
  String.substring 0 (String.length p - 1) p.

(** [pokeHTTP]; [net] gives what happens when [addr] is dialled and the
    request is written. *)
Definition pokeHTTP (net : string → string → exchange) (addr host : string)
    : option error :=
  match net addr (request host) with
  | DialFails err => Some (Errorf_w "failed to dial: " (Some err))
  | WriteFails err => Some (Errorf_w "failed to write OPTIONS request: " (Some err))
  | ReadFails err => Some (Errorf_w "failed to read OPTIONS response: " (Some err))
  | Responds data =>
      if String.prefix badGatewayPrefix (buf data) then
        Some (errorString ("target unavailable: " +:+ but_last badGatewayPrefix))
      else if String.prefix gatewayTimeoutPrefix (buf data) then
        Some (errorString ("target unavailable: " +:+ but_last gatewayTimeoutPrefix))
      else None
  end.

(** Which case of the [select] after a failed poke is taken. *)
Inductive tick : Type := Done | Timer.

(** One round of the Poller's loop: the network at the poke, and the case
    taken after it when the poke fails. *)
Record round : Type := Round { net : string → string → exchange; after : tick }.

(** The [for] loop of the Poller: what it returns, [None] while it is still
    polling after all of [rounds], and the delays it has waited. *)
Fixpoint poll (addr host : string) (b : exponentialBackoff) (rounds : list round)
    : option (option error) * list Z :=
  match rounds with
  | [] => (None, [])
  | r :: rounds' =>
      match pokeHTTP (net r) addr host with
      | None => (Some None, [])
      | Some pollErr =>
          let '(d, b') := Backoff b in
          match after r with
          | Done =>
              (Some (Some (Errorf_w
                 "run.Poller cancelled waiting for poll target to be ready: last err: "
                 (Some pollErr))), [])
          | Timer => let '(res, ds) := poll addr host b' rounds' in (res, d :: ds)
          end
      end
  end.

(** [Poller(addr, PollHTTP).Run]; [SplitHostPort] is [net.SplitHostPort]. *)
Definition Poller (SplitHostPort : string → (string * string) + error)
    (addr : string) (rounds : list round) : option (option error) * list Z :=
  let addr := match SplitHostPort addr with
              | inr _ => addr +:+ ":80"
              | inl _ => addr
              end in
  match SplitHostPort addr with
  | inr err => (Some (Some (Errorf_w "run.Poller invalid addr: " (Some err))), [])
  | inl (host, _) => poll addr host (Backoff_ pollMax pollInitial) rounds
  end.

End Exp.


(** * Properties *)

(** ** Error chains *)

Lemma Is_refl e : Is e e = true.
Proof. destruct e; simpl; case_decide; congruence. Qed.

Lemma Is_wrapError msg e target :
  Is e target = true → Is (wrapError msg e) target = true.
Proof. intros H. simpl. case_decide; [reflexivity | exact H]. Qed.

Lemma Is_wrapErrors_l msg e1 e2 target :
  Is e1 target = true → Is (wrapErrors msg e1 e2) target = true.
Proof. intros H. simpl. case_decide; [reflexivity | by rewrite H]. Qed.

Lemma Is_wrapErrors_r msg e1 e2 target :
  Is e2 target = true → Is (wrapErrors msg e1 e2) target = true.
Proof.
  intros H. simpl. case_decide; [reflexivity | rewrite H; apply orb_true_r].
Qed.

Lemma Is_trans x : ∀ y z, Is x y = true → Is y z = true → Is x z = true.
Proof.
  induction x as [s|msg e IH|msg e1 IH1 e2 IH2]; intros y z Hxy Hyz; simpl in *.
  - case_decide as Hy; [subst y; exact Hyz | discriminate].
  - case_decide as Hy; [subst y; exact Hyz |].
    case_decide; [reflexivity | eauto].
  - case_decide as Hy; [subst y; exact Hyz |].
    case_decide as Hz; [reflexivity |].
    apply orb_true_iff in Hxy as [Hx|Hx]; apply orb_true_iff; eauto.
Qed.

Lemma Is_Errorf_w pre e target :
  Is e target = true → Is (Errorf_w pre (Some e)) target = true.
Proof. apply Is_wrapError. Qed.

Lemma append_nil_r (a : string) : a +:+ "" = a.
Proof.
  induction a as [|x a IH]; [reflexivity |].
  change (String x (a +:+ "") = String x a). by rewrite IH.
Qed.

Lemma contains_refl s : contains s s.
Proof. exists "", "". by rewrite append_nil_r. Qed.

Lemma append_assoc (a b c : string) : (a +:+ b) +:+ c = a +:+ (b +:+ c).
Proof.
  induction a as [|x a IH]; [reflexivity |].
  change (String x ((a +:+ b) +:+ c) = String x (a +:+ (b +:+ c))).
  by rewrite IH.
Qed.

Lemma contains_prepend pre s msg : contains s msg → contains (pre +:+ s) msg.
Proof.
  intros (a & b & ->). exists (pre +:+ a), b. by rewrite append_assoc.
Qed.

Lemma contains_append s post msg : contains s msg → contains (s +:+ post) msg.
Proof.
  intros (a & b & ->). exists a, (b +:+ post). by rewrite !append_assoc.
Qed.

Lemma contains_trans (x y z : string) :
  contains x y → contains y z → contains x z.
Proof.
  intros (p1 & q1 & ->) (p2 & q2 & ->).
  exists (p1 +:+ p2), (q2 +:+ q1). by rewrite !append_assoc.
Qed.

(** ** Sequence *)

Section SequenceFacts.
Context {C W : Type}.
Implicit Types (s : list (Runner C W)) (ctx : C) (w : W).
Import Sequence.

Lemma in_order_snoc ctx i k :
  in_order ctx i (S k) = in_order ctx i k ++ [(i + k, ctx)].
Proof.
  unfold in_order. rewrite seq_S, fmap_app. reflexivity.
Qed.

Lemma in_order_cons ctx i k :
  in_order ctx i (S k) = (i, ctx) :: in_order ctx (S i) k.
Proof. reflexivity. Qed.

Lemma loop_all_nil s : ∀ n i ctx w w' log,
  all_nil s ctx w = Some w' →
  loop n i s ctx w log = (Return None, w', log ++ in_order ctx i (length s)).
Proof.
  induction s as [|r s IH]; intros n i ctx w w' log Hall; simpl in *.
  - injection Hall as ->. rewrite app_nil_r. reflexivity.
  - destruct (r ctx w) as [[[e|]|p|] w1]; try discriminate.
    rewrite (IH n (S i) ctx w1 w' _ Hall), in_order_cons, <- app_assoc.
    reflexivity.
Qed.

Lemma loop_failure pre : ∀ n i r post ctx w w1 w2 e log,
  all_nil pre ctx w = Some w1 →
  r ctx w1 = (Return (Some e), w2) →
  loop n i (pre ++ r :: post) ctx w log =
    (Return (Some (failure (i + length pre) n e)), w2,
     log ++ in_order ctx i (S (length pre))).
Proof.
  induction pre as [|r0 pre IH]; intros n i r post ctx w w1 w2 e log Hall Hr;
    simpl in *.
  - injection Hall as ->. rewrite Hr, Nat.add_0_r. reflexivity.
  - destruct (r0 ctx w) as [[[e0|]|p|] w0]; try discriminate.
    rewrite (IH n (S i) r post ctx w0 w1 w2 e _ Hall Hr).
    rewrite (in_order_cons ctx i), <- app_assoc.
    replace (S i + length pre) with (i + S (length pre)) by lia.
    reflexivity.
Qed.

Lemma times_run_in_order ctx j : ∀ k i,
  times_run j (in_order ctx i k) = if decide (i ≤ j < i + k) then 1 else 0.
Proof.
  unfold times_run.
  induction k as [|k IH]; intros i.
  - simpl. case_decide; [lia | reflexivity].
  - rewrite in_order_cons, filter_cons. simpl.
    destruct (decide (i = j)) as [->|Hne].
    + simpl. rewrite IH. repeat case_decide; lia.
    + rewrite IH. repeat case_decide; lia.
Qed.

(** C6.  [Sequence.Run] calls the members in order, each with the context
    it was given.  If all of them return nil, it returns nil after calling
    every member once.  If the members before position [i] return nil and
    the member there returns the error [e], it returns an error that wraps
    [e] and whose text is "sequence [i:m]: " followed by the text of [e],
    with [i] that position and [m] the last position, the number of members
    less one, both in decimal; it has then called the members up to and
    including that one exactly once each and none of the later ones. *)
Theorem Sequence_Run_spec s ctx w :
  (∀ w', all_nil s ctx w = Some w' →
     Run s ctx w = (Return None, w', (λ j, (j, ctx)) <$> seq 0 (length s)))
  ∧ (∀ pre r post w1 w2 e,
       s = pre ++ r :: post →
       all_nil pre ctx w = Some w1 →
       r ctx w1 = (Return (Some e), w2) →
       ∃ log,
         Run s ctx w =
           (Return (Some (wrapError
              ("sequence [" +:+ pretty (length pre) +:+ ":"
               +:+ pretty (length s - 1) +:+ "]: " +:+ Error e) e)),
            w2, log)
         ∧ log = (λ j, (j, ctx)) <$> seq 0 (S (length pre))
         ∧ (∀ j, j ≤ length pre → length (filter (λ c, c.1 = j) log) = 1)
         ∧ (∀ j, length pre < j → length (filter (λ c, c.1 = j) log) = 0)).
Proof.
  split.
  - intros w' Hall. unfold Run. rewrite (loop_all_nil s _ 0 ctx w w' [] Hall).
    reflexivity.
  - intros pre r post w1 w2 e -> Hall Hr.
    exists (in_order ctx 0 (S (length pre))). unfold Run.
    rewrite (loop_failure pre _ 0 r post ctx w w1 w2 e [] Hall Hr).
    split; [|split; [reflexivity|split]].
    + unfold failure, Errorf_w. rewrite !append_assoc. reflexivity.
    + intros j Hj. fold (times_run j (in_order ctx 0 (S (length pre)))).
      rewrite times_run_in_order. case_decide; [reflexivity | lia].
    + intros j Hj. fold (times_run j (in_order ctx 0 (S (length pre)))).
      rewrite times_run_in_order. case_decide; [lia | reflexivity].
Qed.
End SequenceFacts.

(** The members of the test "stop on failure": a counter is the world. *)
Lemma Sequence_Run_spec_witness :
  let addOne : Runner unit nat := λ _ c, (Return None, S c) in
  let failing : Runner unit nat := λ _ c, (Return (Some (errorString "inner")), c) in
  Sequence.Run [addOne; failing; addOne] tt 0 =
    (Return (Some (wrapError "sequence [1:2]: inner" (errorString "inner"))),
     1, [(0, tt); (1, tt)]).
Proof.
  intros addOne failing.
  destruct (proj2 (Sequence_Run_spec [addOne; failing; addOne] tt 0)
              [addOne] failing [addOne] 1 1 (errorString "inner")
              eq_refl eq_refl eq_refl) as (log & Hrun & -> & _).
  exact Hrun.
Defined.


(** ** Group: one received report *)

Section ReceiveFacts.
Import Group.
Implicit Types (st : state) (gerr : groupErr) (b : bool).

Ltac state_fields :=
  unfold emit; cbn [exited cause exitTimeout cancelled trace runner err].

Ltac receive_cases b gerr st :=
  destruct st as [ex [c|] t d tr], gerr as [name [e|]], b;
  unfold receive;
  unfold mark; state_fields; unfold set_cause; state_fields;
  unfold cancel; state_fields; unfold arm; state_fields;
  rewrite <- ?app_assoc; reflexivity.

Lemma receive_exited b gerr st :
  exited (receive b gerr st) = <[runner gerr := true]> (exited st).
Proof.
  receive_cases b gerr st.
Qed.

(** The cause after a report, from the cause before it. *)
Lemma receive_cause b gerr st :
  cause (receive b gerr st) =
    match cause st with
    | Some c => Some c
    | None =>
        match err gerr with
        | Some e => Some (name_wrap (runner gerr) e)
        | None => if b then Some (name_wrap (runner gerr) ErrExited) else None
        end
    end.
Proof.
  receive_cases b gerr st.
Qed.

Lemma receive_cancelled b gerr st :
  cancelled (receive b gerr st) =
    match cause (receive b gerr st) with
    | Some _ => true
    | None => cancelled st
    end.
Proof.
  receive_cases b gerr st.
Qed.

Lemma receive_exitTimeout b gerr st :
  exitTimeout (receive b gerr st) =
    match cause (receive b gerr st) with
    | Some _ => true
    | None => exitTimeout st
    end.
Proof.
  receive_cases b gerr st.
Qed.

(** What a report adds to the trace. *)
Lemma receive_trace b gerr st :
  trace (receive b gerr st) =
    trace st ++ Received (runner gerr) ::
      match cause st, cause (receive b gerr st) with
      | Some _, _ => [Cancel; After]
      | None, Some c => [CauseSet c; Cancel; After]
      | None, None => []
      end.
Proof.
  receive_cases b gerr st.
Qed.

(** A recorded cause is never replaced. *)
Lemma receive_keeps_cause b gerr st c :
  cause st = Some c → cause (receive b gerr st) = Some c.
Proof. intros H. rewrite receive_cause, H. reflexivity. Qed.

Lemma received_keeps_cause b gerrs : ∀ st c,
  cause st = Some c → cause (received b gerrs st) = Some c.
Proof.
  induction gerrs as [|gerr gerrs IH]; intros st c H; simpl; [exact H|].
  apply IH, receive_keeps_cause, H.
Qed.

Lemma received_snoc b gerrs gerr st :
  received b (gerrs ++ [gerr]) st = receive b gerr (received b gerrs st).
Proof. unfold received. rewrite foldl_app. reflexivity. Qed.

Lemma armed_init {R} (g : gmap string R) : armed_iff_cause (init g).
Proof. split; reflexivity. Qed.

Lemma armed_receive b gerr st :
  armed_iff_cause st → armed_iff_cause (receive b gerr st).
Proof.
  intros [H1 H2]. split.
  - rewrite receive_exitTimeout.
    destruct (cause (receive b gerr st)) eqn:Hc; [reflexivity|].
    rewrite H1. rewrite receive_cause in Hc.
    destruct (cause st); [discriminate | reflexivity].
  - rewrite receive_cancelled.
    destruct (cause (receive b gerr st)) eqn:Hc; [reflexivity|].
    rewrite H2. rewrite receive_cause in Hc.
    destruct (cause st); [discriminate | reflexivity].
Qed.

Lemma armed_received b gerrs : ∀ st,
  armed_iff_cause st → armed_iff_cause (received b gerrs st).
Proof.
  induction gerrs as [|gerr gerrs IH]; intros st H; simpl; [exact H|].
  apply IH, armed_receive, H.
Qed.
End ReceiveFacts.


(** ** Group: the loop *)

Section LoopFacts.
Import Group.
Implicit Types (st : state) (gerr : groupErr) (b : bool) (evs : list event).

(** Reports offered in a row are received in a row. *)
Lemma loop_reports b gerrs : ∀ n st evs,
  length gerrs ≤ n →
  loop b n st ((Report <$> gerrs) ++ evs) =
    loop b (n - length gerrs) (received b gerrs st) evs.
Proof.
  induction gerrs as [|gerr gerrs IH]; intros n st evs Hn; simpl in *.
  - rewrite Nat.sub_0_r. reflexivity.
  - destruct n as [|n]; [lia|]. simpl. apply IH. lia.
Qed.

Lemma loop_fire b n st order evs :
  0 < n → exitTimeout st = true →
  loop b n st (Fire order :: evs) = TimedOut order st.
Proof. intros Hn Ht. destruct n; [lia|]. simpl. rewrite Ht. reflexivity. Qed.

(** What every received report preserves holds when the loop ends. *)
Lemma loop_preserves (P : state → Prop) b :
  (∀ gerr st, P st → P (receive b gerr st)) →
  ∀ evs n st, P st → P (end_state (loop b n st evs)).
Proof.
  intros Hstep. induction evs as [|ev evs IH]; intros n st HP.
  - destruct n; exact HP.
  - destruct n as [|n]; [exact HP|]. destruct ev as [gerr|order]; simpl.
    + apply IH, Hstep, HP.
    + destruct (exitTimeout st); [exact HP | apply (IH (S n)), HP].
Qed.

Lemma loop_timed_out b : ∀ evs n st order st',
  loop b n st evs = TimedOut order st' → exitTimeout st' = true.
Proof.
  induction evs as [|ev evs IH]; intros n st order st' H.
  - destruct n; discriminate.
  - destruct n as [|n]; [discriminate|]. destruct ev as [gerr|order']; simpl in H.
    + eapply IH, H.
    + destruct (exitTimeout st) eqn:Ht; [congruence | eapply IH, H].
Qed.

Lemma loop_keeps_cause b evs n st c :
  cause st = Some c → cancelled st = true →
  cause (end_state (loop b n st evs)) = Some c
  ∧ cancelled (end_state (loop b n st evs)) = true.
Proof.
  intros Hc Hd.
  apply (loop_preserves (λ st, cause st = Some c ∧ cancelled st = true)); [|done].
  intros gerr st0 [H1 H2]. split; [by apply receive_keeps_cause|].
  rewrite receive_cancelled, (receive_keeps_cause _ _ _ _ H1). reflexivity.
Qed.

Lemma timeout_error_wraps order st c :
  cause st = Some c →
  timeout_error order st =
    wrapErrors ((fmt_strings (running order (exited st)) +:+ ": ")
                +:+ Error ErrTimeout +:+ ": shutdown cause: " +:+ Error c)
      ErrTimeout c
  ∧ Is (timeout_error order st) ErrTimeout = true
  ∧ Is (timeout_error order st) c = true.
Proof.
  intros Hc. unfold timeout_error, Errorf_ww. rewrite Hc. split; [reflexivity|].
  split; [apply Is_wrapErrors_l | apply Is_wrapErrors_r]; apply Is_refl.
Qed.

Lemma elem_of_running order (ex : gmap string bool) name :
  name ∈ running order ex ↔ name ∈ order ∧ ex !! name = Some false.
Proof. unfold running. rewrite list_elem_of_filter. tauto. Qed.

Lemma elem_of_ranges {A : Type} (g : gmap string A) order name :
  ranges g order → name ∈ order ↔ name ∈ dom g.
Proof. intros [_ H]. apply H. Qed.

Lemma NoDup_ranges {A : Type} (g : gmap string A) order :
  ranges g order → NoDup order.
Proof. by intros [H _]. Qed.

(** The order of the map itself is one of them. *)
Lemma ranges_map_to_list {A : Type} (g : gmap string A) :
  ranges g (map_to_list g).*1.
Proof.
  split; [apply NoDup_fst_map_to_list|]. intros name.
  rewrite elem_of_dom, list_elem_of_fmap. split.
  - intros ([k v] & -> & Hin). apply elem_of_map_to_list in Hin. by exists v.
  - intros [v Hv]. exists (name, v). split; [done|]. by apply elem_of_map_to_list.
Qed.

Lemma filter_ext_elem {A : Type} (P Q : A → Prop)
    `{∀ x, Decision (P x)} `{∀ x, Decision (Q x)} (l : list A) :
  (∀ x, x ∈ l → P x ↔ Q x) → filter P l = filter Q l.
Proof.
  induction l as [|x l IH]; intros Hext; [reflexivity|].
  rewrite !filter_cons.
  assert (Hx : P x ↔ Q x) by (apply Hext; left).
  rewrite IH by (intros y Hy; apply Hext; by right).
  destruct (decide (P x)), (decide (Q x)); tauto || reflexivity.
Qed.

(** [strings.Join]-like rendering, against the library's. *)
Lemma join_concat sep (l : list string) : join sep l = String.concat sep l.
Proof.
  induction l as [|x [|y l] IH]; [reflexivity|reflexivity|].
  cbn [join String.concat] in *. by rewrite IH.
Qed.

Lemma received_exited b gerrs : ∀ st name,
  exited (received b gerrs st) !! name =
    if decide (name ∈ runner <$> gerrs) then Some true else exited st !! name.
Proof.
  induction gerrs as [|gerr gerrs IH] using rev_ind; intros st name.
  - rewrite decide_False by apply not_elem_of_nil. reflexivity.
  - rewrite received_snoc, receive_exited, fmap_app.
    change (runner <$> [gerr]) with [runner gerr].
    destruct (decide (runner gerr = name)) as [->|Hne].
    + rewrite lookup_insert_eq, decide_True; [reflexivity|].
      apply elem_of_app. right. by apply list_elem_of_singleton.
    + rewrite lookup_insert_ne by done. rewrite IH.
      destruct (decide (name ∈ runner <$> gerrs)) as [Hin|Hin].
      * rewrite decide_True; [reflexivity|]. apply elem_of_app. by left.
      * rewrite decide_False; [reflexivity|]. intros Hin'.
        apply elem_of_app in Hin' as [?|Hin']; [done|].
        apply list_elem_of_singleton in Hin'. congruence.
Qed.

Lemma init_exited {R} (g : gmap string R) name :
  exited (init g) !! name = Some false ↔ name ∈ dom g.
Proof.
  simpl. rewrite lookup_fmap, elem_of_dom. destruct (g !! name); simpl.
  - split; [eauto | reflexivity].
  - split; [discriminate | by intros [? ?]].
Qed.
End LoopFacts.

(** ** Group: what an invocation returns *)

Section RunFacts.
Import Group.
Context {R : Type}.
Implicit Types (g : gmap string R) (st : state) (gerr : groupErr) (b : bool).

Lemma loop_no_members b st evs : loop b 0 st evs = Completed st.
Proof. destruct evs; reflexivity. Qed.

Lemma first_report_cause g gerr :
  cause (receive true gerr (init g)) =
    Some (name_wrap (runner gerr) (default ErrExited (err gerr)))
  ∧ cancelled (receive true gerr (init g)) = true.
Proof.
  rewrite receive_cancelled, receive_cause. simpl.
  destruct (err gerr); split; reflexivity.
Qed.

(** C1, as the code has it.  For [Group.Run] (cancel-on-exit) of the later
    variant: a Group with no members returns nil at once.  Otherwise the
    cause is made from the first report received, the error of that member,
    or [ErrExited] for a nil one, under the member's name; no later report
    changes it, and from that report on the derived context is cancelled.
    When every member has reported before the timer fires, the call returns
    that cause, except that it returns nil when the caller's context reports
    [context.Canceled] at that point; and any error the call returns wraps
    the cause, and through it the first member's error. *)
Theorem Group_Run_first_exit (inCtx : context) g evs :
  let res := Part_002.Run inCtx g evs in
  (size g = 0 → returned res = Some None)
  ∧ (∀ gerr evs', evs = Report gerr :: evs' → 0 < size g →
       let c := name_wrap (runner gerr) (default ErrExited (err gerr)) in
       (∀ gerrs, cause (received true (gerr :: gerrs) (init g)) = Some c
                 ∧ cancelled (received true (gerr :: gerrs) (init g)) = true)
       ∧ cause (final res) = Some c
       ∧ (∀ e, err gerr = Some e →
            c = wrapError (("run.Group[" +:+ runner gerr +:+ "]: ") +:+ Error e) e
            ∧ Is c e = true)
       ∧ (∀ st, loop true (size g) (init g) evs = Completed st →
            returned res =
              Some (if decide (Err inCtx = Some Canceled) then None else Some c))
       ∧ (∀ x e, returned res = Some (Some x) → err gerr = Some e →
            Is x c = true ∧ Is x e = true)).
Proof.
  intros res. split.
  - intros H0. subst res. unfold Part_002.Run, Part_002.run.
    rewrite H0, loop_no_members. case_decide; reflexivity.
  - intros gerr evs' -> Hpos c.
    destruct (first_report_cause g gerr) as [Hc Hd]. fold c in Hc.
    assert (Hwrap : ∀ e, err gerr = Some e →
              c = wrapError (("run.Group[" +:+ runner gerr +:+ "]: ") +:+ Error e) e
              ∧ Is c e = true).
    { intros e He. subst c. rewrite He. simpl. split; [reflexivity|].
      apply Is_Errorf_w, Is_refl. }
    split; [|split; [|split; [exact Hwrap|]]].
    + intros gerrs. simpl.
      pose proof (armed_received true gerrs _
                    (armed_receive true gerr _ (armed_init g))) as Harm.
      pose proof (received_keeps_cause true gerrs _ _ Hc) as Hc'.
      split; [exact Hc'|]. destruct Harm as [_ ->]. rewrite Hc'. reflexivity.
    + subst res. unfold Part_002.Run, Part_002.run.
      destruct (size g) as [|n]; [lia|]. simpl.
      destruct (loop_keeps_cause true evs' n _ c Hc Hd) as [He _].
      destruct (loop true n (receive true gerr (init g)) evs');
        simpl in *; try case_decide; simpl; exact He.
    + subst res. unfold Part_002.Run, Part_002.run.
      destruct (size g) as [|n]; [lia|]. simpl.
      destruct (loop_keeps_cause true evs' n _ c Hc Hd) as [He _].
      pose proof (loop_timed_out true evs' n (receive true gerr (init g))) as Hto.
      destruct (loop true n (receive true gerr (init g)) evs') as [st|order st|st];
        simpl in *.
      * split.
        -- intros st' [= <-]. case_decide; simpl; [reflexivity | by rewrite He].
        -- intros x e Hx Hge. case_decide; simpl in Hx; [discriminate|].
           rewrite He in Hx. injection Hx as <-.
           split; [apply Is_refl | by apply Hwrap].
      * split; [discriminate|]. intros x e [= <-] Hge.
        destruct (timeout_error_wraps order st c He) as (_ & _ & Hw).
        split; [exact Hw|]. eapply Is_trans; [exact Hw | by apply Hwrap].
      * split; [discriminate|]. intros x e Hx. discriminate.
Qed.

(** C3.  The two variants of [Group.run] differ only when the loop ran out
    and the caller's context reports [context.Canceled]: the later variant
    then returns nil where the earlier one returns the cause.  On the timeout
    path, and with [context.DeadlineExceeded], they agree. *)
Theorem run_variants (inCtx : context) g b evs :
  let r1 := Part_001.run g b evs in
  let r2 := Part_002.run inCtx g b evs in
  (∀ st, loop b (size g) (init g) evs = Completed st →
         Err inCtx = Some Canceled →
         returned r2 = Some None ∧ returned r1 = Some (cause st))
  ∧ ((∀ st, loop b (size g) (init g) evs ≠ Completed st) ∨
       Err inCtx ≠ Some Canceled → r2 = r1)
  ∧ (∀ order st, loop b (size g) (init g) evs = TimedOut order st →
         returned r2 = Some (Some (timeout_error order st)) ∧ r2 = r1)
  ∧ (inCtx = CtxDeadlineExceeded → r2 = r1).
Proof.
  intros r1 r2. subst r1 r2. unfold Part_001.run, Part_002.run.
  destruct (loop b (size g) (init g) evs) as [st|order st|st].
  - split; [|split; [|split]].
    + intros st' [= <-] Hc. rewrite decide_True by done. done.
    + intros [H|H]; [by destruct (H st)|]. by rewrite decide_False.
    + discriminate.
    + intros ->. reflexivity.
  - split; [discriminate|]. split; [done|]. split; [|done].
    intros order' st' [= <- <-]. done.
  - split; [discriminate|]. split; [done|]. split; [discriminate|done].
Qed.

(** C4.  When fewer reports than members have been received and the armed
    timer fires, the call returns at once, whatever would have come next,
    an error that wraps [ErrTimeout] and the recorded cause and whose text
    is "[names]: one or more runners did not exit in time: shutdown cause:
    " followed by the text of the cause.  The names, separated by spaces,
    are the members that have not reported, each once and no other name, in
    the order in which the range over the map yields them. *)
Theorem Group_run_timeout (inCtx : context) g b gerrs order rest :
  length gerrs < size g →
  exitTimeout (received b gerrs (init g)) = true →
  ranges g order →
  let names := filter (λ name, name ∉ runner <$> gerrs) order in
  ∃ c,
    cause (received b gerrs (init g)) = Some c
    ∧ returned (Part_002.run inCtx g b ((Report <$> gerrs) ++ Fire order :: rest)) =
        Some (Some (wrapErrors
          ("[" +:+ String.concat " " names
           +:+ "]: one or more runners did not exit in time: shutdown cause: "
           +:+ Error c)
          (errorString "one or more runners did not exit in time") c))
    ∧ NoDup names
    ∧ (∀ name, name ∈ names ↔ name ∈ dom g ∧ name ∉ runner <$> gerrs).
Proof.
  intros Hlen Harmed Horder names.
  set (st := received b gerrs (init g)) in *.
  destruct (armed_received b gerrs _ (armed_init g)) as [Ht _].
  fold st in Ht. rewrite Harmed in Ht.
  destruct (cause st) as [c|] eqn:Hc; [|discriminate].
  assert (Hnames : running order (exited st) = names).
  { unfold running, names. apply filter_ext_elem. intros name Ho.
    subst st. rewrite received_exited.
    case_decide as Hin; [split; [discriminate|tauto]|].
    split; [done|]. intros _.
    by apply init_exited, (elem_of_ranges g order). }
  exists c. split; [reflexivity|]. split.
  { unfold Part_002.run. rewrite loop_reports by lia. fold st.
    rewrite loop_fire by (done || lia). cbn [returned return_].
    destruct (timeout_error_wraps order st c Hc) as (-> & _).
    rewrite Hnames. unfold fmt_strings. rewrite join_concat.
    do 3 f_equal. rewrite !append_assoc. reflexivity. }
  split.
  - unfold names. apply NoDup_filter, (NoDup_ranges g order Horder).
  - intros name. unfold names. rewrite list_elem_of_filter.
    rewrite (elem_of_ranges g order name Horder). tauto.
Qed.
End RunFacts.

(** The tests' Group: "foo" fails with [innerErr], "bar" waits. *)
Lemma Group_Run_first_exit_witness :
  let g : gmap string unit := <["foo" := tt]> (<["bar" := tt]> ∅) in
  let gerr := Group.GroupErr "foo" (Some (errorString "inner")) in
  let evs := [Group.Report gerr; Group.Report (Group.GroupErr "bar" None)] in
  Group.returned (Part_002.Run Active g evs) =
    Some (if decide (Err Active = Some Canceled) then None
          else Some (Group.name_wrap "foo" (errorString "inner"))).
Proof.
  intros g gerr evs.
  destruct (Group_Run_first_exit Active g evs) as [_ H].
  destruct (H gerr [Group.Report (Group.GroupErr "bar" None)] eq_refl
              ltac:(vm_compute; lia)) as (_ & _ & _ & Hret & _).
  eapply Hret. vm_compute. reflexivity.
Defined.

(** The caller's context is cancelled: the failure of "foo" is recorded as
    the cause, every member has reported, and the call returns nil. *)
Lemma Group_Run_cancelled_parent_returns_nil :
  let g : gmap string unit := <["foo" := tt]> ∅ in
  let evs := [Group.Report (Group.GroupErr "foo" (Some (errorString "inner")))] in
  let res := Part_002.Run CtxCanceled g evs in
  (∃ st, Group.loop true (size g) (Group.init g) evs = Group.Completed st)
  ∧ Group.cause (Group.final res) = Some (Group.name_wrap "foo" (errorString "inner"))
  ∧ Group.returned res = Some None
  ∧ Group.returned res ≠ Some (Group.cause (Group.final res)).
Proof.
  intros g evs res. split; [eexists; vm_compute; reflexivity|].
  split; [vm_compute; reflexivity|]. split; [vm_compute; reflexivity|].
  vm_compute. discriminate.
Qed.

Lemma run_variants_witness :
  let g : gmap string unit := <["foo" := tt]> ∅ in
  let evs := [Group.Report (Group.GroupErr "foo" None)] in
  Group.returned (Part_002.run CtxCanceled g true evs) = Some None
  ∧ Group.returned (Part_001.run g true evs) =
      Some (Group.cause (Group.receive true (Group.GroupErr "foo" None) (Group.init g))).
Proof.
  intros g evs.
  destruct (run_variants CtxCanceled g true evs) as [H _].
  apply H; vm_compute; reflexivity.
Defined.

(** The test "timeout waiting for runner cancel" with one member more:
    "foo" fails, "bar" and "baz" never report, the timer fires and the range
    over the map yields "baz", "foo", "bar". *)
Lemma Group_run_timeout_witness :
  let g : gmap string unit :=
    <["foo" := tt]> (<["bar" := tt]> (<["baz" := tt]> ∅)) in
  let gerrs := [Group.GroupErr "foo" (Some (errorString "inner"))] in
  Group.returned
    (Part_002.run Active g true
       ((Group.Report <$> gerrs) ++ [Group.Fire ["baz"; "foo"; "bar"]])) =
    Some (Some (wrapErrors
      "[baz bar]: one or more runners did not exit in time: shutdown cause: run.Group[foo]: inner"
      (errorString "one or more runners did not exit in time")
      (wrapError "run.Group[foo]: inner" (errorString "inner")))).
Proof.
  intros g gerrs.
  destruct (Group_run_timeout Active g true gerrs ["baz"; "foo"; "bar"] [])
    as (c & Hc & Hret & _).
  - vm_compute. lia.
  - vm_compute. reflexivity.
  - split.
    + apply (bool_decide_unpack _). vm_compute. exact I.
    + intros name. unfold g. rewrite !dom_insert_L, dom_empty_L.
      rewrite !elem_of_cons, elem_of_nil, !elem_of_union, !elem_of_singleton,
        elem_of_empty. tauto.
  - vm_compute in Hc. injection Hc as <-. exact Hret.
Defined.

Section PolicyFacts.
Import Group.
Context {R : Type}.
Implicit Types (g : gmap string R) (st : state) (gerr : groupErr).

(** Nil reports received without cancel-on-exit while there is no cause
    only mark their members. *)
Lemma received_nil (nils : list groupErr) : ∀ st,
  Forall (λ gerr, err gerr = None) nils → cause st = None →
  cause (received false nils st) = None
  ∧ cancelled (received false nils st) = cancelled st
  ∧ exitTimeout (received false nils st) = exitTimeout st
  ∧ trace (received false nils st) = trace st ++ (Received <$> (runner <$> nils)).
Proof.
  induction nils as [|gerr nils IH]; intros st Hnil Hc.
  - cbn. by rewrite app_nil_r.
  - apply Forall_cons in Hnil as [He Hnil]. cbn [received foldl].
    assert (Hc' : cause (receive false gerr st) = None)
      by (by rewrite receive_cause, Hc, He).
    destruct (IH (receive false gerr st) Hnil Hc') as (H1 & H2 & H3 & H4).
    fold (received false nils (receive false gerr st)).
    rewrite H1, H2, H3, H4.
    rewrite receive_cancelled, receive_exitTimeout, receive_trace, Hc', Hc.
    rewrite !fmap_cons, <- app_assoc. done.
Qed.

(** The trace only grows, through the loop and on return. *)
Lemma loop_trace_grows b evs n st :
  ∃ tr, trace (end_state (loop b n st evs)) = trace st ++ tr.
Proof.
  apply (loop_preserves (λ st', ∃ tr, trace st' = trace st ++ tr)).
  - intros gerr st' [tr Htr]. rewrite receive_trace, Htr, <- app_assoc. eauto.
  - exists []. by rewrite app_nil_r.
Qed.

Lemma run_trace_grows (inCtx : context) g b gerrs evs :
  length gerrs ≤ size g →
  ∃ tr, trace (final (Part_002.run inCtx g b ((Report <$> gerrs) ++ evs))) =
          trace (received b gerrs (init g)) ++ tr.
Proof.
  intros Hlen. unfold Part_002.run. rewrite loop_reports by done.
  destruct (loop_trace_grows b evs (size g - length gerrs)
              (received b gerrs (init g))) as [tr Htr].
  destruct (loop b (size g - length gerrs) (received b gerrs (init g)) evs)
    as [st|order st|st]; cbn [end_state] in Htr.
  - case_decide; cbn [final return_]; unfold cancel, emit;
      cbn [trace]; rewrite Htr, <- !app_assoc; eauto.
  - cbn [final return_]. unfold cancel, emit.
    cbn [trace]. rewrite Htr, <- !app_assoc. eauto.
  - cbn [final]. eauto.
Qed.

(** C2.  In [Group.Run] (cancel-on-exit), when the first report received is
    a nil one, the Group records the cause "run.Group[name]: runner exited
    early", which wraps [ErrExited], and calls [cancel()] on the context of
    the members.  In the Group built by [WithoutCancel], nil reports received
    while there is no cause are only taken note of: no cause is recorded and
    nothing is cancelled, and the call goes on waiting for the other
    members; the first report with an error after them records that error
    under the member's name as the cause and calls [cancel()]. *)
Theorem Group_receive_policy (inCtx : context) g :
  (∀ name evs, 0 < size g →
     ∃ tr,
       trace (final (Part_002.Run inCtx g (Report (GroupErr name None) :: evs))) =
         [Received name;
          CauseSet (wrapError ("run.Group[" +:+ name +:+ "]: runner exited early")
                      (errorString "runner exited early"));
          Cancel; After] ++ tr)
  ∧ (∀ nils, Forall (λ gerr, err gerr = None) nils → length nils < size g →
       let res := Part_002.WithoutCancel inCtx g (Report <$> nils) in
       returned res = None
       ∧ cause (final res) = None
       ∧ cancelled (final res) = false
       ∧ trace (final res) = Received <$> (runner <$> nils))
  ∧ (∀ nils name e evs,
       Forall (λ gerr, err gerr = None) nils → length nils < size g →
       ∃ tr,
         trace (final (Part_002.WithoutCancel inCtx g
                         ((Report <$> nils)
                          ++ Report (GroupErr name (Some e)) :: evs))) =
           (Received <$> (runner <$> nils))
           ++ [Received name;
               CauseSet (wrapError ("run.Group[" +:+ name +:+ "]: " +:+ Error e) e);
               Cancel; After]
           ++ tr).
Proof.
  split; [|split].
  - intros name evs Hpos.
    destruct (run_trace_grows inCtx g true [GroupErr name None] evs) as [tr Htr];
      [simpl; lia|].
    exists tr. unfold Part_002.Run.
    change (Report (GroupErr name None) :: evs)
      with ((Report <$> [GroupErr name None]) ++ evs).
    rewrite Htr. cbn [received foldl]. rewrite receive_trace, receive_cause.
    cbn [cause init err runner trace app]. unfold name_wrap, Errorf_w.
    change (Error ErrExited) with "runner exited early".
    rewrite !append_assoc. reflexivity.
  - intros nils Hnil Hlen res. subst res.
    destruct (received_nil nils (init g) Hnil eq_refl) as (Hc & Hd & Ht & Htr).
    unfold Part_002.WithoutCancel, Part_002.run.
    rewrite <- (app_nil_r (Report <$> nils)), loop_reports by lia.
    destruct (size g - length nils) as [|n] eqn:Hn; [lia|].
    cbn [loop returned final]. rewrite Hc, Hd, Htr. done.
  - intros nils name e evs Hnil Hlen.
    destruct (run_trace_grows inCtx g false (nils ++ [GroupErr name (Some e)]) evs)
      as [tr Htr]; [rewrite length_app; simpl; lia|].
    exists tr. unfold Part_002.WithoutCancel.
    rewrite fmap_app, <- app_assoc in Htr. cbn [fmap list_fmap app] in Htr.
    rewrite Htr, received_snoc.
    destruct (received_nil nils (init g) Hnil eq_refl) as (Hc & _ & _ & Htr').
    rewrite receive_trace, receive_cause, Hc, Htr'. cbn [err runner trace init].
    unfold name_wrap, Errorf_w. rewrite !append_assoc.
    cbn [app]. rewrite <- !app_assoc. reflexivity.
Qed.
End PolicyFacts.

(** A Group of three.  With [Run], "foo" returns nil first.  Built
    [WithoutCancel], "foo" returns nil, then "bar" fails. *)
Lemma Group_receive_policy_witness :
  let g : gmap string unit :=
    <["foo" := tt]> (<["bar" := tt]> (<["baz" := tt]> ∅)) in
  let nils := [Group.GroupErr "foo" None] in
  (∃ tr,
     Group.trace (Group.final (Part_002.Run Active g
       [Group.Report (Group.GroupErr "foo" None)])) =
       [Group.Received "foo";
        Group.CauseSet (wrapError "run.Group[foo]: runner exited early"
                          (errorString "runner exited early"));
        Group.Cancel; Group.After] ++ tr)
  ∧ (let res := Part_002.WithoutCancel Active g (Group.Report <$> nils) in
     Group.returned res = None
     ∧ Group.cause (Group.final res) = None
     ∧ Group.cancelled (Group.final res) = false
     ∧ Group.trace (Group.final res) = [Group.Received "foo"])
  ∧ ∃ tr,
      Group.trace (Group.final (Part_002.WithoutCancel Active g
        ((Group.Report <$> nils)
         ++ Group.Report (Group.GroupErr "bar" (Some (errorString "inner")))
         :: [Group.Report (Group.GroupErr "baz" None)]))) =
        [Group.Received "foo"]
        ++ [Group.Received "bar";
            Group.CauseSet (wrapError "run.Group[bar]: inner" (errorString "inner"));
            Group.Cancel; Group.After]
        ++ tr.
Proof.
  intros g nils.
  destruct (Group_receive_policy Active g) as (H1 & H2 & H3).
  split; [|split].
  - apply (H1 "foo" []). vm_compute. lia.
  - apply (H2 nils); [by repeat constructor | vm_compute; lia].
  - apply (H3 nils "bar" (errorString "inner")
             [Group.Report (Group.GroupErr "baz" None)]);
      [by repeat constructor | vm_compute; lia].
Defined.


(** ** Panics of members *)

Section PanicFacts.
Import Group.
Context {R : Type}.
Implicit Types (g : gmap string R) (st : state) (gerr : groupErr) (b : bool).

Lemma carries_wrapped x c p :
  Is x c = true → contains (Error x) (Error c) → carries c p → carries x p.
Proof.
  intros HIs Hcont. destruct p as [e|v]; simpl.
  - intros Hc. eapply Is_trans; eassumption.
  - intros Hc. eapply contains_trans; eassumption.
Qed.

Lemma timeout_error_contains order st c :
  cause st = Some c → contains (Error (timeout_error order st)) (Error c).
Proof.
  intros Hc. unfold timeout_error, Errorf_ww. rewrite Hc. simpl.
  exists ((fmt_strings (running order (exited st)) +:+ ": ")
          +:+ Error ErrTimeout +:+ ": shutdown cause: "), "".
  rewrite append_nil_r, !append_assoc. reflexivity.
Qed.

(** Once a cause is recorded, an error returned by the call wraps it. *)
Lemma run_wraps_cause (inCtx : context) g b gerrs rest c x :
  length gerrs ≤ size g →
  cause (received b gerrs (init g)) = Some c →
  returned (Part_002.run inCtx g b ((Report <$> gerrs) ++ rest)) = Some (Some x) →
  Is x c = true ∧ contains (Error x) (Error c).
Proof.
  intros Hlen Hc. unfold Part_002.run. rewrite loop_reports by done.
  destruct (armed_received b gerrs _ (armed_init g)) as [_ Hd].
  rewrite Hc in Hd.
  destruct (loop_keeps_cause b rest (size g - length gerrs) _ c Hc Hd) as [He _].
  destruct (loop b (size g - length gerrs) (received b gerrs (init g)) rest)
    as [st|order st|st]; simpl in *.
  - case_decide; simpl; [discriminate|]. rewrite He. intros [= <-].
    split; [apply Is_refl | apply contains_refl].
  - intros [= <-]. split; [|by apply timeout_error_contains].
    by destruct (timeout_error_wraps order st c He) as (_ & _ & ?).
  - discriminate.
Qed.

(** C5, as the code has it.  A member whose [Run] panics sends one report
    under its name, with an error that wraps the panic value when it is an
    error and shows its rendering otherwise, and its goroutine ends without
    a panic; the goroutine of [Go] does the same on its channel.  When that
    report is received while no cause is recorded, every error the Group's
    call returns carries the panic value. *)
Theorem panic_contained (inCtx : context) g b name p :
  let e := match p with
           | PError pe => wrapError ("run.Group recover: " +:+ Error pe) pe
           | PValue v => errorString ("run.Group recover: " +:+ v)
           end in
  let e' := match p with
            | PError pe => wrapError ("run.Go recover: " +:+ Error pe) pe
            | PValue v => errorString ("run.Go recover: " +:+ v)
            end in
  member name (Panic p) = Exec [GroupErr name (Some e)] None
  ∧ ¬ crashes (member name (Panic p))
  ∧ Detached.Go (Panic p) = Exec [Some e'] None
  ∧ ¬ crashes (Detached.Go (Panic p))
  ∧ carries e p ∧ carries e' p
  ∧ (∀ gerrs rest x,
       length gerrs < size g →
       cause (received b gerrs (init g)) = None →
       returned (Part_002.run inCtx g b
                   ((Report <$> gerrs) ++ Report (GroupErr name (Some e)) :: rest))
         = Some (Some x) →
       carries x p).
Proof.
  intros e e'.
  assert (He : carries e p).
  { subst e. destruct p as [pe|v]; simpl.
    - apply Is_wrapError, Is_refl.
    - apply contains_prepend, contains_refl. }
  assert (He' : carries e' p).
  { subst e'. destruct p as [pe|v]; simpl.
    - apply Is_wrapError, Is_refl.
    - apply contains_prepend, contains_refl. }
  split; [by destruct p|]. split; [by destruct p; intros []|].
  split; [by destruct p|]. split; [by destruct p; intros []|].
  split; [exact He|]. split; [exact He'|].
  intros gerrs rest x Hlen Hnone Hret.
  set (gerr := GroupErr name (Some e)) in *.
  assert (Hc : cause (received b (gerrs ++ [gerr]) (init g)) =
               Some (name_wrap name e)).
  { rewrite received_snoc, receive_cause, Hnone. reflexivity. }
  replace ((Report <$> gerrs) ++ Report gerr :: rest)
    with ((Report <$> (gerrs ++ [gerr])) ++ rest) in Hret
    by (rewrite fmap_app, <- app_assoc; reflexivity).
  apply run_wraps_cause with (c := name_wrap name e) in Hret as [HIs Hcont];
    [| rewrite length_app; simpl; lia | exact Hc].
  apply (carries_wrapped x (name_wrap name e) p HIs Hcont).
  apply (carries_wrapped _ e p); [apply Is_Errorf_w, Is_refl | | exact He].
  simpl. apply contains_prepend, contains_refl.
Qed.
End PanicFacts.

(** "foo" panics with an error before anything else is reported. *)
Lemma panic_contained_witness :
  let g : gmap string unit := <["foo" := tt]> (<["bar" := tt]> ∅) in
  let boom := errorString "boom" in
  let e := wrapError ("run.Group recover: " +:+ Error boom) boom in
  ∃ x,
    Group.returned (Part_002.run Active g true
       ((Group.Report <$> []) ++ Group.Report (Group.GroupErr "foo" (Some e))
          :: [Group.Report (Group.GroupErr "bar" None)])) = Some (Some x)
    ∧ Group.carries x (PError boom).
Proof.
  intros g boom e.
  destruct (panic_contained Active g true "foo" (PError boom))
    as (_ & _ & _ & _ & _ & _ & H).
  eexists. split; [vm_compute; reflexivity|].
  apply (H [] [Group.Report (Group.GroupErr "bar" None)]).
  - vm_compute. lia.
  - reflexivity.
  - vm_compute. reflexivity.
Defined.

(** "foo" fails first, then "bar" panics with an error: the call returns
    the failure of "foo", which does not carry the panic value. *)
Lemma panic_after_cause_not_returned :
  let g : gmap string unit := <["foo" := tt]> (<["bar" := tt]> ∅) in
  let boom := errorString "boom" in
  let foo := Group.GroupErr "foo" (Some (errorString "inner")) in
  ∃ bar x,
    sent (Group.member "bar" (Panic (PError boom))) = [bar]
    ∧ Group.returned (Part_002.Run Active g [Group.Report foo; Group.Report bar])
        = Some (Some x)
    ∧ x = Group.name_wrap "foo" (errorString "inner")
    ∧ ¬ Group.carries x (PError boom).
Proof.
  intros g boom foo. eexists. eexists.
  split; [reflexivity|]. split; [vm_compute; reflexivity|].
  split; [vm_compute; reflexivity|]. vm_compute. discriminate.
Qed.

(** ** The order of cause and cancellation *)

Section CancelFacts.
Import Group.
Context {R : Type}.
Implicit Types (g : gmap string R) (st : state) (gerr : groupErr) (b : bool)
  (tr : list effect).

Lemma caused_app_l tr ext : caused tr → caused (tr ++ ext).
Proof. intros [c Hc]. exists c. apply elem_of_app. by left. Qed.

Lemma cancel_only_after_cause_snoc tr e :
  cancel_only_after_cause tr → (e = Cancel → caused tr) →
  cancel_only_after_cause (tr ++ [e]).
Proof.
  intros Htr He pre post Heq.
  destruct post as [|x post _] using rev_ind.
  - apply app_inj_tail in Heq as [-> ->]. by apply He.
  - rewrite app_comm_cons, app_assoc in Heq.
    apply app_inj_tail in Heq as [-> ->]. by apply (Htr pre post).
Qed.

Lemma ordered_init g : ordered (init g).
Proof.
  split; [|done]. intros pre post Heq. simpl in Heq.
  by destruct pre.
Qed.

Lemma ordered_receive b gerr st : ordered st → ordered (receive b gerr st).
Proof.
  intros [Htr Hc]. unfold ordered. rewrite receive_trace.
  assert (H0 : cancel_only_after_cause (trace st ++ [Received (runner gerr)])).
  { apply cancel_only_after_cause_snoc; [exact Htr | discriminate]. }
  destruct (cause st) as [c0|] eqn:Hc0.
  - assert (Hcd : caused (trace st ++ [Received (runner gerr)])).
    { apply caused_app_l, Hc. done. }
    replace (trace st ++ [Received (runner gerr); Cancel; After])
      with (((trace st ++ [Received (runner gerr)]) ++ [Cancel]) ++ [After])
      by (rewrite <- !app_assoc; reflexivity).
    split.
    + apply cancel_only_after_cause_snoc; [|discriminate].
      apply cancel_only_after_cause_snoc; [exact H0 | done].
    + intros _. by do 2 apply caused_app_l.
  - destruct (cause (receive b gerr st)) as [c|] eqn:Hc1.
    + assert (Hcd : caused ((trace st ++ [Received (runner gerr)]) ++ [CauseSet c])).
      { exists c. apply elem_of_app. right. apply list_elem_of_singleton. done. }
      replace (trace st ++ [Received (runner gerr); CauseSet c; Cancel; After])
        with ((((trace st ++ [Received (runner gerr)]) ++ [CauseSet c])
                ++ [Cancel]) ++ [After])
        by (rewrite <- !app_assoc; reflexivity).
      split.
      * apply cancel_only_after_cause_snoc; [|discriminate].
        apply cancel_only_after_cause_snoc; [|done].
        apply cancel_only_after_cause_snoc; [exact H0 | discriminate].
      * intros _. by do 2 apply caused_app_l.
    + split; [exact H0 | done].
Qed.

(** When the loop runs out, it has received as many reports as it had
    iterations, all of them among those offered. *)
Lemma loop_completed b : ∀ evs n st st',
  loop b n st evs = Completed st' →
  ∃ gerrs, length gerrs = n ∧ st' = received b gerrs st
           ∧ (runner <$> gerrs) `sublist_of` reports evs.
Proof.
  induction evs as [|ev evs IH]; intros n st st' H.
  - destruct n; [|discriminate]. injection H as <-.
    exists []. split; [done|]. split; [done|]. constructor.
  - destruct n as [|n].
    + injection H as <-. exists []. split; [done|]. split; [done|].
      apply sublist_nil_l.
    + destruct ev as [gerr|]; simpl in H.
      * apply IH in H as (gerrs & Hlen & -> & Hsub).
        exists (gerr :: gerrs). split; [simpl; lia|]. split; [done|].
        simpl. by constructor.
      * destruct (exitTimeout st); [discriminate|].
        apply IH in H as (gerrs & Hlen & -> & Hsub).
        exists gerrs. done.
Qed.

(** As many distinct members as there are members: all of them. *)
Lemma all_members g (names : list string) :
  NoDup names → (∀ name, name ∈ names → name ∈ dom g) →
  length names = size g →
  ∀ name, name ∈ dom g → name ∈ names.
Proof.
  intros Hnd Hin Hlen name Hname.
  assert (Hsub : names ⊆+ elements (dom g)).
  { apply NoDup_submseteq; [exact Hnd|]. intros x Hx.
    apply elem_of_elements, Hin, Hx. }
  assert (Hperm : names ≡ₚ elements (dom g)).
  { apply submseteq_length_Permutation; [exact Hsub|].
    rewrite Hlen, <- size_dom. reflexivity. }
  rewrite Hperm. by apply elem_of_elements.
Qed.

(** C9, as the code has it.  In every Group invocation whose reports come
    from distinct members, each [cancel()] of the derived context comes after
    a cause has been recorded, except the deferred one on a return without a
    cause, which comes when the call has its result and every member has
    reported; and every return is followed by that deferred [cancel()], so
    the derived context is cancelled on every return path. *)
Theorem Group_cancel_order (inCtx : context) g b evs :
  well_formed g evs →
  let res := Part_002.run inCtx g b evs in
  (∀ pre post, trace (final res) = pre ++ Cancel :: post →
     caused pre
     ∨ (post = [] ∧ cause (final res) = None
        ∧ (∃ r tr, returned res = Some r ∧ pre = tr ++ [Result r])
        ∧ ∀ name, name ∈ dom g → exited (final res) !! name = Some true))
  ∧ (∀ r, returned res = Some r →
       ∃ tr, trace (final res) = tr ++ [Result r; Cancel]
             ∧ cancelled (final res) = true).
Proof.
  intros [Hnd Hdom] res.
  assert (Hord : ordered (end_state (loop b (size g) (init g) evs))).
  { apply (loop_preserves ordered); [apply ordered_receive | apply ordered_init]. }
  assert (Harm : armed_iff_cause (end_state (loop b (size g) (init g) evs))).
  { apply (loop_preserves armed_iff_cause); [apply armed_receive | apply armed_init]. }
  assert (Hret : ∀ r st,
    ordered st →
    (cause st = None →
       ∀ name, name ∈ dom g → exited st !! name = Some true) →
    (∀ pre post, trace (final (return_ r st)) = pre ++ Cancel :: post →
       caused pre
       ∨ (post = [] ∧ cause (final (return_ r st)) = None
          ∧ (∃ r' tr, returned (return_ r st) = Some r' ∧ pre = tr ++ [Result r'])
          ∧ ∀ name, name ∈ dom g →
              exited (final (return_ r st)) !! name = Some true))
    ∧ (∀ r', returned (return_ r st) = Some r' →
         ∃ tr, trace (final (return_ r st)) = tr ++ [Result r'; Cancel]
               ∧ cancelled (final (return_ r st)) = true)).
  { intros r st [Htr Hc] Hall. simpl. split.
    - intros pre post Heq.
      destruct post as [|x post _] using rev_ind.
      + replace ((trace st ++ [Result r]) ++ [Cancel])
          with ((trace st ++ [Result r]) ++ [Cancel]) in Heq by done.
        apply app_inj_tail in Heq as [<- _].
        destruct (cause st) as [c|] eqn:Hcs.
        * left. apply caused_app_l, Hc. done.
        * right. split; [done|]. split; [done|].
          split; [by exists r, (trace st)|]. by apply Hall.
      + rewrite app_comm_cons, app_assoc in Heq.
        apply app_inj_tail in Heq as [Heq _].
        destruct post as [|y post _] using rev_ind.
        * apply app_inj_tail in Heq as [_ Heq]. discriminate.
        * rewrite app_comm_cons, app_assoc in Heq.
          apply app_inj_tail in Heq as [Heq _].
          left. by apply (Htr pre post).
    - intros r' [= <-]. exists (trace st).
      rewrite <- app_assoc. done. }
  subst res. unfold Part_002.run.
  destruct (loop b (size g) (init g) evs) as [st|st|st] eqn:Hloop;
    simpl in Hord, Harm.
  - assert (Hall : cause st = None →
                   ∀ name, name ∈ dom g → exited st !! name = Some true).
    { intros _ name Hname.
      apply loop_completed in Hloop as (gerrs & Hlen & -> & Hsub).
      rewrite received_exited. rewrite decide_True; [done|].
      apply (all_members g); [| |by rewrite length_fmap|done].
      - eapply sublist_NoDup; eassumption.
      - intros x Hx. apply Hdom. eapply elem_of_sublist; eassumption. }
    case_decide; apply Hret; done.
  - apply Hret; [done|]. intros Hnone. destruct Harm as [Ht _].
    apply loop_timed_out in Hloop. rewrite Hloop, Hnone in Ht. discriminate.
  - split; [|discriminate]. intros pre post Heq. left.
    destruct Hord as [Htr _]. by apply (Htr pre post).
Qed.
End CancelFacts.

(** The Group of the test "don't cancel on early return", both members
    having reported. *)
Lemma Group_cancel_order_witness :
  let g : gmap string unit := <["foo" := tt]> (<["bar" := tt]> ∅) in
  let evs := [Group.Report (Group.GroupErr "foo" None);
              Group.Report (Group.GroupErr "bar" (Some (errorString "inner")))] in
  let res := Part_002.run Active g false evs in
  ∃ r tr,
    Group.returned res = Some r
    ∧ Group.trace (Group.final res) = tr ++ [Group.Result r; Group.Cancel]
    ∧ Group.cancelled (Group.final res) = true.
Proof.
  intros g evs res.
  assert (Hwf : Group.well_formed g evs).
  { split.
    - apply (bool_decide_unpack (NoDup _)). vm_compute. exact I.
    - intros name Hname. vm_compute in Hname.
      apply elem_of_cons in Hname as [->|Hname];
        [apply elem_of_dom; exists tt; vm_compute; reflexivity|].
      apply elem_of_cons in Hname as [->|Hname];
        [apply elem_of_dom; exists tt; vm_compute; reflexivity|].
      by apply elem_of_nil in Hname. }
  eexists.
  destruct (proj2 (Group_cancel_order Active g false evs Hwf) _
              ltac:(vm_compute; reflexivity)) as (tr & Htr & Hc).
  exists tr. split; [vm_compute; reflexivity|]. split; [exact Htr | exact Hc].
Defined.

(** A Group built [WithoutCancel] whose only member returns nil: the call
    returns nil and its deferred [cancel()] comes with no cause recorded. *)
Lemma cancel_without_cause :
  let g : gmap string unit := <["foo" := tt]> ∅ in
  let res := Part_002.WithoutCancel Active g
               [Group.Report (Group.GroupErr "foo" None)] in
  Group.returned res = Some None
  ∧ Group.trace (Group.final res) =
      [Group.Received "foo"; Group.Result None; Group.Cancel]
  ∧ Group.cause (Group.final res) = None
  ∧ ¬ Group.cancel_only_after_cause (Group.trace (Group.final res)).
Proof.
  intros g res. split; [vm_compute; reflexivity|].
  split; [vm_compute; reflexivity|]. split; [vm_compute; reflexivity|].
  intros H.
  destruct (H [Group.Received "foo"; Group.Result None] []) as [c Hc].
  - vm_compute. reflexivity.
  - apply elem_of_cons in Hc as [Hc|Hc]; [discriminate|].
    apply elem_of_cons in Hc as [Hc|Hc]; [discriminate|].
    by apply elem_of_nil in Hc.
Qed.


(** ** The result channel never blocks a member *)

Section LaunchFacts.
Import Group Launch.
Context {R : Type}.
Implicit Types (g : gmap string R) (outs : gmap string outcome) (s : system).

(** What the goroutine of a member sends, from how its [Run] ends; it never
    ends with a panic. *)
Lemma member_sends name o :
  member name o =
    Exec match o with
         | Return e => [GroupErr name e]
         | Panic (PError pe) =>
             [GroupErr name (Some (wrapError ("run.Group recover: " +:+ Error pe) pe))]
         | Panic (PValue v) =>
             [GroupErr name (Some (errorString ("run.Group recover: " +:+ v)))]
         | Goexit => []
         end None.
Proof. destruct o as [e|[pe|v]|]; reflexivity. Qed.

Lemma member_sent_own name o :
  length (sent (member name o)) ≤ 1
  ∧ Forall (λ m, runner m = name) (sent (member name o)).
Proof.
  rewrite member_sends. destruct o as [e|[pe|v]|]; cbn [sent length];
    (split; [lia|repeat constructor]).
Qed.

Lemma send_all_room {M : Type} (ms : list M) : ∀ c : Chan.chan M,
  length (Chan.buf c) + length ms ≤ Chan.cap c →
  Chan.send_all ms c = Some (Chan.Chan (Chan.buf c ++ ms) (Chan.cap c)).
Proof.
  induction ms as [|m ms IH]; intros c Hroom.
  - cbn [Chan.send_all]. rewrite app_nil_r. by destruct c.
  - cbn [Chan.send_all length] in *. unfold Chan.send.
    rewrite decide_True by lia. rewrite IH.
    + cbn [Chan.buf Chan.cap]. by rewrite <- app_assoc.
    + cbn [Chan.buf Chan.cap]. rewrite length_app. cbn [length]. lia.
Qed.

Lemma invariant_launch g outs : invariant g outs [] (launch g outs).
Proof.
  split; [reflexivity|]. split.
  - simpl. rewrite <- (size_dom g), <- size_dom.
    apply subseteq_size. intros name Hname.
    apply elem_of_dom in Hname as [o Ho].
    apply map_lookup_filter_Some in Ho as [_ Ho]. exact Ho.
  - intros name. rewrite decide_False by apply not_elem_of_nil. done.
Qed.

Lemma reports_of_sent name s ms c l :
  reports_of name (System (Chan.Chan (Chan.buf (errs s) ++ ms) c) l (taken s))
  = reports_of name s ++ filter (λ m, runner m = name) ms.
Proof.
  unfold reports_of. cbn [errs taken Chan.buf].
  by rewrite app_assoc, filter_app.
Qed.

Lemma filter_own (name name' : string) (ms : list groupErr) :
  Forall (λ m, runner m = name) ms →
  filter (λ m, runner m = name') ms = if decide (name = name') then ms else [].
Proof.
  induction 1 as [|m ms Hm _ IH]; [by case_decide|].
  rewrite filter_cons, IH, Hm. destruct (decide (name = name')); done.
Qed.

Lemma invariant_step g outs fin s a :
  invariant g outs fin s →
  ∃ s', step s a = Going s' ∧ invariant g outs (fin ++ finished [a]) s'.
Proof.
  unfold invariant. set (L := live (launch g outs)). clearbody L.
  intros (Hcap & Hroom & Hrep). destruct a as [name|]; cbn [step finished omap list_omap].
  - assert (Hin : ∀ name', name' ∈ fin ++ [name] ↔ name' = name ∨ name' ∈ fin).
    { intros name'. rewrite elem_of_app, list_elem_of_singleton. tauto. }
    destruct (Hrep name) as [Hlive Hreps].
    destruct (live s !! name) as [o|] eqn:Hl.
    + (* the goroutine is alive: it sends what it sends and ends *)
      assert (Hfin : name ∉ fin).
      { intros Hf. rewrite decide_True in Hlive by done. discriminate. }
      rewrite decide_False in Hlive by done. rewrite decide_False in Hreps by done.
      destruct (member_sent_own name o) as [Hlen Hown].
      assert (Hsz : size (live s) = S (size (delete name (live s)))).
      { rewrite <- (insert_delete_id (live s) name o) at 1 by done.
        rewrite map_size_insert_None by apply lookup_delete_eq. reflexivity. }
      rewrite send_all_room by lia.
      eexists. split; [reflexivity|]. cbn [errs live taken Chan.cap Chan.buf].
      split; [exact Hcap|]. split; [rewrite length_app; lia|].
      intros name'. rewrite reports_of_sent, (filter_own name name') by done.
      destruct (Hrep name') as [Hlive' Hreps'].
      destruct (decide (name = name')) as [<-|Hne].
      * rewrite lookup_delete_eq, !decide_True by (apply Hin; by left).
        rewrite Hreps, <- Hlive. done.
      * rewrite lookup_delete_ne by done. rewrite app_nil_r.
        destruct (decide (name' ∈ fin)) as [Hf|Hf].
        -- rewrite !decide_True by (apply Hin; by right). done.
        -- rewrite !decide_False; [done|rewrite Hin; intros [?|?]; congruence..].
    + (* it has ended before, or never was launched *)
      exists s. split; [reflexivity|]. split; [exact Hcap|]. split; [exact Hroom|].
      intros name'. destruct (Hrep name') as [Hlive' Hreps'].
      destruct (decide (name' ∈ fin)) as [Hf|Hf].
      * rewrite !decide_True by (apply Hin; by right). done.
      * destruct (decide (name' = name)) as [->|Hne].
        -- rewrite !decide_True by (apply Hin; by left).
           rewrite decide_False in Hlive by done. rewrite decide_False in Hreps by done.
           rewrite <- Hlive, Hl. done.
        -- rewrite !decide_False; [done|rewrite Hin; intros [?|?]; congruence..].
  - rewrite app_nil_r.
    unfold Chan.recv. destruct (Chan.buf (errs s)) as [|m buf] eqn:Hbuf.
    + exists s. split; [reflexivity|]. split; [exact Hcap|].
      split; [rewrite Hbuf; exact Hroom | exact Hrep].
    + eexists. split; [reflexivity|]. cbn [errs live taken Chan.cap Chan.buf].
      split; [exact Hcap|]. split; [simpl in *; lia|].
      intros name'. destruct (Hrep name') as [Hlive' Hreps'].
      split; [exact Hlive'|].
      unfold reports_of in *. cbn [errs live taken Chan.cap Chan.buf].
      rewrite Hbuf in Hreps'. rewrite <- app_assoc. exact Hreps'.
Qed.

Lemma invariant_steps g outs acts : ∀ fin s,
  invariant g outs fin s →
  ∃ s', steps s acts = Going s' ∧ invariant g outs (fin ++ finished acts) s'.
Proof.
  induction acts as [|a acts IH]; intros fin s Hinv.
  - exists s. split; [reflexivity|]. by rewrite app_nil_r.
  - cbn [steps].
    destruct (invariant_step g outs fin s a Hinv) as (s1 & -> & Hinv1).
    destruct (IH _ s1 Hinv1) as (s' & Hs' & Hinv').
    exists s'. split; [exact Hs'|].
    replace (fin ++ finished (a :: acts))
      with ((fin ++ finished [a]) ++ finished acts); [exact Hinv'|].
    rewrite <- app_assoc. f_equal. unfold finished. cbn [omap list_omap].
    by destruct a.
Qed.

Lemma elem_of_finished acts name : name ∈ finished acts ↔ Finish name ∈ acts.
Proof.
  unfold finished. rewrite list_elem_of_omap. split.
  - intros ([name'|] & Hin & [= <-]). exact Hin.
  - intros Hin. by exists (Finish name).
Qed.

(** C10, as the code has it.  No goroutine of a member lets a panic out.
    On the channel made with room for [len(g)+1] reports, however the ends
    of the members' goroutines and the receptions interleave, and also when
    nothing is received any more, no send ever finds the buffer full and
    there is always room left.  A member has reported nothing before its
    goroutine ends; once it has ended it has reported exactly once when its
    [Run] returned or panicked: what [Run] returned, or the recovered panic
    as an error "run.Group recover: ...", under the member's name.  A member
    whose [Run] ended its goroutine with [runtime.Goexit] has reported
    nothing. *)
Theorem Group_reports_once g outs acts :
  (∀ name o, ¬ crashes (member name o))
  ∧ ∃ s,
      steps (launch g outs) acts = Going s
      ∧ length (Chan.buf (errs s)) < Chan.cap (errs s)
      ∧ (∀ name o, name ∈ dom g → outs !! name = Some o →
           reports_of name s =
             if decide (Finish name ∈ acts) then
               match o with
               | Return e => [GroupErr name e]
               | Panic (PError pe) =>
                   [GroupErr name
                      (Some (wrapError ("run.Group recover: " +:+ Error pe) pe))]
               | Panic (PValue v) =>
                   [GroupErr name (Some (errorString ("run.Group recover: " +:+ v)))]
               | Goexit => []
               end
             else []).
Proof.
  split.
  - intros name o. rewrite member_sends. intros H. by apply H.
  - destruct (invariant_steps g outs acts [] _ (invariant_launch g outs))
      as (s & Hs & Hcap & Hroom & Hrep).
    exists s. split; [exact Hs|]. split; [lia|].
    intros name o Hname Ho. destruct (Hrep name) as [_ Hreps].
    assert (Hl : live (launch g outs) !! name = Some o).
    { simpl. apply map_lookup_filter_Some. done. }
    rewrite Hl, member_sends in Hreps. cbn [app sent] in Hreps.
    rewrite Hreps.
    destruct (decide (name ∈ finished acts)) as [Hf|Hf].
    + rewrite decide_True by (by apply elem_of_finished). done.
    + rewrite decide_False; [done|]. by rewrite <- elem_of_finished.
Qed.
End LaunchFacts.

(** ** Once *)

Section OnceFacts.
Import Once.
Context {C W : Type}.
Variable r : Runner C W.
Implicit Types (ctx : C) (w : W) (c : cell W) (pcs : list (pc C))
  (s : shared W).

Lemma Run_done ctx c : done c = true → Run r ctx c = (Return (err c), c).
Proof. intros H. unfold Run. rewrite H. reflexivity. Qed.

(** Calls on a cell that is done replay [err] and leave the cell alone. *)
Lemma invoke_done ctxs : ∀ c,
  done c = true →
  invoke r ctxs c = (replicate (length ctxs) (Return (err c)), c).
Proof.
  induction ctxs as [|ctx ctxs IH]; intros c Hd; simpl; [reflexivity|].
  rewrite Run_done by done. rewrite IH by done. reflexivity.
Qed.

(** The first call on a fresh cell runs [r] and leaves the cell done. *)
Lemma Run_new ctx w :
  Run r ctx (new w) =
    ((r ctx w).1, Cell true (assigned (r ctx w).1) (r ctx w).2 1).
Proof.
  unfold Run, new. simpl. destruct (r ctx w) as [[e|p|] w1]; reflexivity.
Qed.

Lemma invoke_new ctx ctxs w :
  invoke r (ctx :: ctxs) (new w) =
    ((r ctx w).1 :: replicate (length ctxs) (Return (assigned (r ctx w).1)),
     Cell true (assigned (r ctx w).1) (r ctx w).2 1).
Proof.
  cbn [invoke]. rewrite Run_new. rewrite invoke_done by reflexivity.
  reflexivity.
Qed.
End OnceFacts.
Section OnceConcurrent.
Import Once.
Context {C W : Type}.
Variable r : Runner C W.
Implicit Types (ctx : C) (w : W) (pcs : list (pc C)) (s : shared W)
  (st : list (pc C) * shared W).

Lemma count_insert (P : pc C → bool) pcs : ∀ tid old new,
  pcs !! tid = Some old →
  length (filter (λ p, P p = true) (<[tid := new]> pcs)) + (if P old then 1 else 0)
  = length (filter (λ p, P p = true) pcs) + (if P new then 1 else 0).
Proof.
  induction pcs as [|p pcs IH]; intros tid old new Hl; [done|].
  destruct tid as [|tid]; simpl in Hl.
  - injection Hl as ->.
    change (<[0 := new]> (old :: pcs)) with (new :: pcs).
    rewrite !filter_cons.
    destruct (P old) eqn:Ho, (P new) eqn:Hn;
      repeat case_decide; simpl; try congruence; lia.
  - change (<[S tid := new]> (p :: pcs)) with (p :: <[tid := new]> pcs).
    rewrite !filter_cons. specialize (IH tid old new Hl).
    case_decide; simpl; lia.
Qed.

Lemma work_cons (p : pc C) pcs : work (p :: pcs) = ahead p + work pcs.
Proof. reflexivity. Qed.

Lemma work_insert pcs : ∀ tid old new,
  pcs !! tid = Some old →
  work (<[tid := new]> pcs) + ahead old = work pcs + ahead new.
Proof.
  induction pcs as [|p pcs IH]; intros tid old new Hl; [done|].
  destruct tid as [|tid]; simpl in Hl.
  - injection Hl as ->.
    change (<[0 := new]> (old :: pcs)) with (new :: pcs).
    rewrite !work_cons. lia.
  - change (<[S tid := new]> (p :: pcs)) with (p :: <[tid := new]> pcs).
    rewrite !work_cons. specialize (IH tid old new Hl). lia.
Qed.

Lemma once_invariant_callers (ctxs : list C) w : invariant (callers ctxs w).
Proof.
  unfold invariant, callers. simpl.
  split; [|split; [done|split; [done|split; [done|split; [done|]]]]].
  - induction ctxs as [|ctx ctxs IH]; [done|].
    rewrite fmap_cons, filter_cons_False; [exact IH | simpl; done].
  - intros tid o Hl. rewrite list_lookup_fmap in Hl.
    destruct (ctxs !! tid); discriminate.
Qed.

Lemma lookup_insert_Left pcs tid tid' (new : pc C) o :
  has_left new = false →
  <[tid := new]> pcs !! tid' = Some (Left o) → pcs !! tid' = Some (Left o).
Proof.
  intros Hnew Hl. destruct (decide (tid = tid')) as [<-|Hne].
  - destruct (decide (tid < length pcs)) as [Hlt|Hge].
    + rewrite list_lookup_insert_eq in Hl by done.
      injection Hl as ->. discriminate.
    + rewrite list_insert_ge in Hl by lia. exact Hl.
  - rewrite list_lookup_insert_ne in Hl by done. exact Hl.
Qed.

Lemma lookup_insert_Left_inv pcs tid tid' o o' :
  <[tid := Left o]> pcs !! tid' = Some (Left o') →
  o' = o ∨ pcs !! tid' = Some (Left o').
Proof.
  intros Hl. destruct (decide (tid = tid')) as [<-|Hne].
  - destruct (decide (tid < length pcs)) as [Hlt|Hge].
    + rewrite list_lookup_insert_eq in Hl by done. injection Hl as ->. by left.
    + rewrite list_insert_ge in Hl by lia. by right.
  - rewrite list_lookup_insert_ne in Hl by done. by right.
Qed.

Ltac invariant_fields Hc :=
  simpl in Hc; unfold invariant; cbv beta iota; simpl;
  repeat match goal with
         | H : sdone _ = _ |- _ => rewrite H
         | H : locked _ = _ |- _ => rewrite H
         end;
  split_and!; try done; try lia.

Lemma once_invariant_step st tid : invariant st → invariant (step r st tid).
Proof.
  destruct st as [pcs s]. intros (Hcount & Hlock & Hruns & Hnot & Hdone & Hleft).
  unfold step. destruct (pcs !! tid) as [[ctx|ctx|ctx|o]|] eqn:Hpc;
    try (unfold invariant; cbv beta iota; split_and!; done).
  - (* Entry *)
    destruct (sdone s) eqn:Hd.
    + pose proof (count_insert in_do pcs tid _ (Left (Return (serr s))) Hpc) as Hc.
      invariant_fields Hc.
      intros tid' o Hl.
      apply lookup_insert_Left_inv in Hl as [->|Hl];
        [split; [done | by left] | by apply (Hleft tid')].
    + pose proof (count_insert in_do pcs tid _ (Locking ctx) Hpc) as Hc.
      invariant_fields Hc.
      intros tid' o Hl. apply lookup_insert_Left in Hl; [|done].
      by apply (Hleft tid').
  - (* Locking *)
    destruct (locked s) eqn:Hl.
    { unfold invariant; cbv beta iota; rewrite Hl; split_and!; done. }
    destruct (sdone s) eqn:Hd.
    + pose proof (count_insert in_do pcs tid _ (Left (Return (serr s))) Hpc) as Hc.
      invariant_fields Hc.
      intros tid' o Hl'.
      apply lookup_insert_Left_inv in Hl' as [->|Hl'];
        [split; [done | by left] | by apply (Hleft tid')].
    + pose proof (count_insert in_do pcs tid _ (InDo ctx) Hpc) as Hc.
      invariant_fields Hc.
      intros tid' o Hl'. apply lookup_insert_Left in Hl'; [|done].
      by apply (Hleft tid').
  - (* InDo *)
    assert (Hlk : locked s = true).
    { destruct (locked s); [done|].
      pose proof (count_insert in_do pcs tid _ (Left (Return None)) Hpc) as Hc.
      simpl in Hc. lia. }
    rewrite Hlk in Hcount. pose proof (Hlock Hlk) as Hd.
    destruct (Hnot Hd) as [Hfirst Herr].
    assert (Hnone : ∀ tid' o, pcs !! tid' = Some (Left o) → False).
    { intros tid' o Hl. apply Hleft in Hl as [? _]. congruence. }
    destruct (r ctx (sworld s)) as [[e|p|] w'] eqn:Hr.
    + pose proof (count_insert in_do pcs tid _ (Left (Return e)) Hpc) as Hc.
      invariant_fields Hc.
      * by rewrite Hruns, Hd.
      * by exists (Return e).
      * intros tid' o Hl. apply lookup_insert_Left_inv in Hl as [->|Hl];
          [split; [done | by left] | by destruct (Hnone tid' o)].
    + pose proof (count_insert in_do pcs tid _ (Left (Panic p)) Hpc) as Hc.
      invariant_fields Hc.
      * by rewrite Hruns, Hd.
      * exists (Panic p). by rewrite Herr.
      * intros tid' o Hl. apply lookup_insert_Left_inv in Hl as [->|Hl];
          [split; [done | by right] | by destruct (Hnone tid' o)].
    + pose proof (count_insert in_do pcs tid _ (Left Goexit) Hpc) as Hc.
      invariant_fields Hc.
      * by rewrite Hruns, Hd.
      * exists Goexit. by rewrite Herr.
      * intros tid' o Hl. apply lookup_insert_Left_inv in Hl as [->|Hl];
          [split; [done | by right] | by destruct (Hnone tid' o)].
Qed.

Lemma once_invariant_schedule tids : ∀ st, invariant st → invariant (schedule r st tids).
Proof.
  induction tids as [|tid tids IH]; intros st H; [exact H|].
  apply IH, once_invariant_step, H.
Qed.
End OnceConcurrent.

Section OnceProgress.
Import Once.
Context {C W : Type}.
Variable r : Runner C W.
Implicit Types (ctx : C) (w : W) (pcs : list (pc C)) (s : shared W)
  (st : list (pc C) * shared W).

Lemma provenance_callers (ctxs : list C) w : provenance r ctxs w (callers ctxs w).
Proof.
  unfold provenance, callers. simpl. split_and!; try done.
  intros tid p ctx Hl Hctx. rewrite list_lookup_fmap in Hl.
  destruct (ctxs !! tid) as [ctx'|] eqn:Hc; [|discriminate].
  injection Hl as <-. injection Hctx as <-.
  eapply list_elem_of_lookup_2, Hc.
Qed.

Lemma lookup_insert_ctx pcs tid tid' (new p : pc C) :
  <[tid := new]> pcs !! tid' = Some p → p = new ∨ pcs !! tid' = Some p.
Proof.
  intros Hl. destruct (decide (tid = tid')) as [<-|Hne].
  - destruct (decide (tid < length pcs)) as [Hlt|Hge].
    + rewrite list_lookup_insert_eq in Hl by done. injection Hl as ->. by left.
    + rewrite list_insert_ge in Hl by lia. by right.
  - rewrite list_lookup_insert_ne in Hl by done. by right.
Qed.

Lemma provenance_step ctxs w st tid :
  invariant st → provenance r ctxs w st → provenance r ctxs w (step r st tid).
Proof.
  destruct st as [pcs s].
  intros (Hcount & Hlock & Hruns & Hnot & Hdone & Hleft) (Hctx & Hw & Hfirst).
  assert (Hkeep : ∀ new : pc C,
    (∀ ctx, ctx_of new = Some ctx → ctx ∈ ctxs) →
    ∀ tid' p ctx, <[tid := new]> pcs !! tid' = Some p →
                  ctx_of p = Some ctx → ctx ∈ ctxs).
  { intros new Hnew tid' p ctx Hl Hp.
    apply lookup_insert_ctx in Hl as [->|Hl]; [by apply Hnew | by eapply Hctx]. }
  unfold step. destruct (pcs !! tid) as [[ctx|ctx|ctx|o]|] eqn:Hpc;
    try (unfold provenance; cbv beta iota; split_and!; done).
  - destruct (sdone s) eqn:Hd; unfold provenance; cbv beta iota;
      (split; [apply Hkeep; simpl; intros ? [= <-] || discriminate; eauto|]);
      rewrite ?Hd; split; done.
  - destruct (locked s) eqn:Hl.
    { unfold provenance; cbv beta iota; split_and!; done. }
    destruct (sdone s) eqn:Hd; unfold provenance; cbv beta iota; simpl;
      (split; [apply Hkeep; simpl; intros ? [= <-] || discriminate; eauto|]);
      rewrite ?Hd; split; done.
  - assert (Hlk : locked s = true).
    { destruct (locked s); [done|].
      pose proof (count_insert in_do pcs tid _ (Left (Return None)) Hpc) as Hc.
      simpl in Hc. lia. }
    pose proof (Hlock Hlk) as Hd. rewrite (Hw Hd).
    assert (Hin : ctx ∈ ctxs) by (eapply Hctx; [exact Hpc | reflexivity]).
    destruct (r ctx w) as [[e|p|] w'] eqn:Hr; unfold provenance; cbv beta iota;
      simpl; (split; [apply Hkeep; discriminate|]); (split; [done|]);
      intros o [= <-]; exists ctx; rewrite Hr; done.
Qed.

Lemma provenance_schedule ctxs w tids : ∀ st,
  invariant st → provenance r ctxs w st →
  provenance r ctxs w (schedule r st tids).
Proof.
  induction tids as [|tid tids IH]; intros st Hi Hp; [exact Hp|].
  apply IH; [by apply once_invariant_step | by apply provenance_step].
Qed.

(** Somebody can always move until everybody has left. *)
Lemma exists_ahead pcs :
  0 < work pcs → ∃ tid p, pcs !! tid = Some p ∧ 0 < ahead p.
Proof.
  induction pcs as [|p pcs IH]; [unfold work; simpl; lia|].
  rewrite work_cons. intros H.
  destruct (decide (0 < ahead p)) as [Hp|Hp].
  - by exists 0, p.
  - destruct IH as (tid & q & Hl & Hq); [lia|]. by exists (S tid), q.
Qed.

Lemma exists_in_do pcs :
  0 < length (filter (λ p, in_do p = true) pcs) →
  ∃ tid ctx, pcs !! tid = Some (InDo ctx).
Proof.
  intros H. destruct (filter (λ p, in_do p = true) pcs) as [|p l] eqn:Hf;
    [simpl in H; lia|].
  assert (Hp : p ∈ filter (λ p, in_do p = true) pcs)
    by (rewrite Hf; apply list_elem_of_here).
  apply list_elem_of_filter in Hp as [Hdo Hin].
  apply list_elem_of_lookup_1 in Hin as [tid Hl].
  destruct p as [ctx|ctx|ctx|o]; try discriminate. by exists tid, ctx.
Qed.

Lemma step_progress st :
  invariant st → 0 < work st.1 → ∃ tid, work (step r st tid).1 < work st.1.
Proof.
  destruct st as [pcs s]. intros Hinv Hwork. simpl in Hwork.
  pose proof Hinv as (Hcount & Hlock & _).
  assert (Hmove : ∀ tid ctx, pcs !! tid = Some (InDo ctx) →
            work (step r (pcs, s) tid).1 < work pcs).
  { intros tid ctx Hpc. unfold step. rewrite Hpc.
    destruct (r ctx (sworld s)) as [[e|p|] w']; simpl.
    - pose proof (work_insert pcs tid _ (Left (Return e)) Hpc) as Hw.
      simpl in Hw. lia.
    - pose proof (work_insert pcs tid _ (Left (Panic p)) Hpc) as Hw.
      simpl in Hw. lia.
    - pose proof (work_insert pcs tid _ (Left Goexit) Hpc) as Hw.
      simpl in Hw. lia. }
  destruct (locked s) eqn:Hl.
  - destruct (exists_in_do pcs) as (tid & ctx & Hpc); [lia|].
    exists tid. simpl. by eapply Hmove.
  - destruct (exists_ahead pcs Hwork) as (tid & p & Hpc & Hp).
    exists tid. simpl. destruct p as [ctx|ctx|ctx|o]; [| |by eapply Hmove|simpl in Hp; lia].
    + unfold step. rewrite Hpc. destruct (sdone s); simpl.
      * pose proof (work_insert pcs tid _ (Left (Return (serr s))) Hpc) as Hw.
        simpl in Hw. lia.
      * pose proof (work_insert pcs tid _ (Locking ctx) Hpc) as Hw.
        simpl in Hw. lia.
    + unfold step. rewrite Hpc, Hl. destruct (sdone s); simpl.
      * pose proof (work_insert pcs tid _ (Left (Return (serr s))) Hpc) as Hw.
        simpl in Hw. lia.
      * pose proof (work_insert pcs tid _ (InDo ctx) Hpc) as Hw.
        simpl in Hw. lia.
Qed.

Lemma can_finish n : ∀ st,
  invariant st → work st.1 ≤ n → ∃ tids, work (schedule r st tids).1 = 0.
Proof.
  induction n as [|n IH]; intros st Hinv Hn.
  - exists []. simpl. lia.
  - destruct (decide (work st.1 = 0)) as [H0|H0]; [by exists []|].
    destruct (step_progress st Hinv) as [tid Htid]; [lia|].
    destruct (IH (step r st tid)) as [tids Htids];
      [by apply once_invariant_step | lia|].
    exists (tid :: tids). exact Htids.
Qed.

Lemma work_0_left pcs : work pcs = 0 → Forall (λ p, has_left p = true) pcs.
Proof.
  induction pcs as [|p pcs IH]; [constructor|].
  rewrite work_cons. intros H. constructor.
  - destruct p; simpl in *; (done || lia).
  - apply IH. lia.
Qed.
End OnceProgress.

Section OnceSpec.
Import Once.
Context {C W : Type}.
Variable r : Runner C W.

(** C7, as the code has it.  Whatever the number of calls of [Once(r)]:
    [r] runs exactly once, in the first call, and when that run returns
    (an error or nil) every call returns that same value.  One after the
    other: the first call ends as the run of [r] does, the later ones return
    what the run assigned to [err].  Concurrently, under every interleaving:
    [r] runs at most once; a caller that has left left after the one run of
    [r], made from the starting world with the context of one of the
    callers, and with its value when that run returned; and the callers can
    always all leave. *)
Theorem Once_runs_once (ctx : C) (ctxs : list C) (w : W) :
  let o1 := (r ctx w).1 in
  (let res := invoke r (ctx :: ctxs) (new w) in
   runs res.2 = 1 ∧ world res.2 = (r ctx w).2
   ∧ res.1 = o1 :: replicate (length ctxs) (Return (assigned o1))
   ∧ (∀ e, o1 = Return e → ∀ o, o ∈ res.1 → o = Return e))
  ∧ (∀ tids,
       let st := schedule r (callers (ctx :: ctxs) w) tids in
       sruns st.2 ≤ 1
       ∧ ∀ tid o, st.1 !! tid = Some (Left o) →
           sruns st.2 = 1
           ∧ ∃ o' ctx', first st.2 = Some o' ∧ ctx' ∈ ctx :: ctxs
                        ∧ o' = (r ctx' w).1
                        ∧ (o = o' ∨ o = Return (assigned o'))
                        ∧ ∀ e, o' = Return e → o = Return e)
  ∧ (∃ tids,
       Forall (λ p, has_left p = true)
         (schedule r (callers (ctx :: ctxs) w) tids).1).
Proof.
  intros o1. split; [|split].
  - rewrite invoke_new. fold o1. simpl. split_and!; try done.
    intros e He o Ho. rewrite He in Ho. simpl in Ho.
    apply elem_of_cons in Ho as [->|Ho]; [done|].
    by apply elem_of_replicate in Ho as [-> _].
  - intros tids st.
    pose proof (once_invariant_schedule r tids _
                  (once_invariant_callers (ctx :: ctxs) w)) as Hinv.
    pose proof (provenance_schedule r (ctx :: ctxs) w tids _
                  (once_invariant_callers (ctx :: ctxs) w)
                  (provenance_callers r (ctx :: ctxs) w)) as Hprov.
    fold st in Hinv, Hprov. destruct st as [pcs s]. simpl.
    destruct Hinv as (_ & _ & Hruns & _ & Hdone & Hleft).
    destruct Hprov as (_ & _ & Hfirst).
    split; [rewrite Hruns; destruct (sdone s); lia|].
    intros tid o Hl. destruct (Hleft tid o Hl) as [Hd Ho].
    split; [by rewrite Hruns, Hd|].
    destruct (Hdone Hd) as (o' & Ho' & Hassigned).
    destruct (Hfirst o' Ho') as (ctx' & Hin & Heq).
    exists o', ctx'. split_and!; try done.
    + destruct Ho as [->|Ho]; [right; by rewrite Hassigned | left; congruence].
    + intros e ->. destruct Ho as [->|Ho]; [|congruence].
      by rewrite <- Hassigned.
  - destruct (can_finish r (work (callers (ctx :: ctxs) w).1) _
                (once_invariant_callers (ctx :: ctxs) w)) as [tids Htids];
      [done|].
    exists tids. by apply work_0_left.
Qed.
End OnceSpec.

(** The test "fail": the runner counts its calls and fails in the first. *)
Lemma Once_runs_once_witness :
  let r : Runner unit nat :=
    λ _ count, (Return (if decide (count = 0) then Some (errorString "inner") else None),
                S count) in
  Forall (λ o, o = Return (Some (errorString "inner")))
    (Once.invoke r [tt; tt] (Once.new 0)).1.
Proof.
  intros r. apply Forall_forall.
  destruct (proj1 (Once_runs_once r tt [tt] 0)) as (_ & _ & _ & H).
  exact (H _ eq_refl).
Defined.

(** A runner that panics: the first caller gets the panic, the second gets
    nil, and the runner has run once. *)
Lemma Once_panic_not_replayed :
  let r : Runner unit nat := λ _ count, (Panic (PValue "boom"), S count) in
  let res := Once.invoke r [tt; tt] (Once.new 0) in
  res.1 = [Panic (PValue "boom"); Return None]
  ∧ Once.runs res.2 = 1
  ∧ ¬ (∀ o o', o ∈ res.1 → o' ∈ res.1 → o = o').
Proof.
  intros r res. split; [reflexivity|]. split; [reflexivity|].
  intros H. specialize (H (Panic (PValue "boom")) (Return None)).
  discriminate H; [apply list_elem_of_here | apply list_elem_of_further, list_elem_of_here].
Qed.

(** ** Start *)

Section StartFacts.
Import Starting.
Implicit Types (inCtx : context) (runner ready : Runner unit context)
  (evs : list Group.event).

(** What the member "ready" sends on [readych], from how the probe ends. *)
Lemma ready_sequence_readych ready (now0 : context) :
  readych (Sequence.Run (ready_sequence ready) tt (World now0 [])).1.2 =
    match ready tt now0 with
    | (Return None, c) => [Err c]
    | _ => []
    end.
Proof.
  unfold Sequence.Run, ready_sequence. cbn [Sequence.loop].
  unfold lift, publish, Idle. cbn [now readych].
  destruct (ready tt now0) as [[[e|]|p|] c]; reflexivity.
Qed.

Lemma Start_readych inCtx (now0 : context) runner ready evs :
  Start inCtx now0 runner ready evs =
    match readych (Sequence.Run (ready_sequence ready) tt (World now0 [])).1.2 with
    | [] => Hang
    | Some _ :: _ =>
        match from_done (Part_002.Run inCtx (Ready runner ready) evs) with
        | Ret d => Ret (Some (Errorf_w "runner not ready: " d), None)
        | Hang => Hang
        end
    | None :: _ => Ret (None, Some (stop (Part_002.Run inCtx (Ready runner ready) evs)))
    end.
Proof.
  unfold Start.
  destruct (Sequence.Run (ready_sequence ready) tt (World now0 []))
    as [[o w] log]. reflexivity.
Qed.

(** The probe succeeds while the context is live: [Start] returns no error
    and the closure, which passes on what the Group returned, an error under
    "run.Start: runner shutdown with error: " and nil as nil. *)
Lemma Start_ready inCtx (now0 : context) runner ready evs c :
  ready tt now0 = (Return None, c) → Err c = None →
  Start inCtx now0 runner ready evs =
    Ret (None, Some (stop (Part_002.Run inCtx (Ready runner ready) evs)))
  ∧ ∀ r, Group.returned (Part_002.Run inCtx (Ready runner ready) evs) = Some r →
      stop (Part_002.Run inCtx (Ready runner ready) evs) tt =
        Ret (match r with
             | Some e => Some (wrapError
                 ("run.Start: runner shutdown with error: " +:+ Error e) e)
             | None => None
             end).
Proof.
  intros Hr Hc. split.
  - rewrite Start_readych, ready_sequence_readych, Hr, Hc. reflexivity.
  - intros res Hres. unfold stop, from_done. rewrite Hres. by destruct res.
Qed.

(** The context is done when the probe returns nil: [Start] returns an
    error "runner not ready: ..." and no closure, once the Group returns. *)
Lemma Start_cancelled inCtx (now0 : context) runner ready evs c e r :
  ready tt now0 = (Return None, c) → Err c = Some e →
  Group.returned (Part_002.Run inCtx (Ready runner ready) evs) = Some r →
  Start inCtx now0 runner ready evs =
    Ret (Some (Errorf_w "runner not ready: " r), None).
Proof.
  intros Hr Hc Hres.
  rewrite Start_readych, ready_sequence_readych, Hr, Hc.
  unfold from_done. rewrite Hres. reflexivity.
Qed.

(** C8.  When the probe itself fails, returning an error or panicking, the
    member "ready" stops before the step that sends on [readych]; nothing is
    ever sent there, and [Start] never returns from its receive, whatever
    the runner, the contexts and the Group do. *)
Theorem Start_hangs_when_probe_fails inCtx (now0 : context) runner ready evs o c :
  ready tt now0 = (o, c) → o ≠ Return None →
  Start inCtx now0 runner ready evs = Hang.
Proof.
  intros Hr Ho. rewrite Start_readych, ready_sequence_readych, Hr.
  destruct o as [[e|]|p|]; done.
Qed.
End StartFacts.

(** A probe that fails at once, next to a runner that only waits. *)
Lemma Start_hangs_when_probe_fails_witness :
  let waits : Runner unit context := λ _ c, (Return None, c) in
  let probe : Runner unit context :=
    λ _ c, (Return (Some (errorString "probe failed")), c) in
  Starting.Start Active Active waits probe [] = Hang.
Proof.
  intros waits probe.
  apply (Start_hangs_when_probe_fails Active Active waits probe []
           (Return (Some (errorString "probe failed"))) Active).
  - reflexivity.
  - discriminate.
Defined.

(** "foo" fails and is received, then "bar" panics when nobody receives any
    more. *)
Lemma Group_reports_once_witness :
  let g : gmap string unit := <["foo" := tt]> (<["bar" := tt]> ∅) in
  let outs : gmap string outcome :=
    <["foo" := Return (Some (errorString "inner"))]>
      (<["bar" := Panic (PValue "boom")]> ∅) in
  let acts := [Launch.Finish "foo"; Launch.Take; Launch.Finish "bar"] in
  ∃ s,
    Launch.steps (Launch.launch g outs) acts = Launch.Going s
    ∧ length (Chan.buf (Launch.errs s)) < Chan.cap (Launch.errs s)
    ∧ Launch.reports_of "foo" s =
        [Group.GroupErr "foo" (Some (errorString "inner"))]
    ∧ Launch.reports_of "bar" s =
        [Group.GroupErr "bar" (Some (errorString "run.Group recover: boom"))].
Proof.
  intros g outs acts.
  destruct (proj2 (Group_reports_once g outs acts)) as (s & Hs & Hroom & H).
  exists s. split; [exact Hs|]. split; [exact Hroom|]. split.
  - apply (H "foo" (Return (Some (errorString "inner")))).
    + apply elem_of_dom. exists tt. vm_compute. reflexivity.
    + vm_compute. reflexivity.
  - apply (H "bar" (Panic (PValue "boom"))).
    + apply elem_of_dom. exists tt. vm_compute. reflexivity.
    + vm_compute. reflexivity.
Defined.

(** A member whose [Run] calls [runtime.Goexit]: its goroutine ends and no
    report is ever on the channel; the Group goes on waiting for it. *)
Lemma Group_Goexit_member_never_reports :
  let g : gmap string unit := <["foo" := tt]> ∅ in
  let outs : gmap string outcome := <["foo" := Goexit]> ∅ in
  ∃ s,
    Launch.steps (Launch.launch g outs) [Launch.Finish "foo"] = Launch.Going s
    ∧ Launch.live s !! "foo" = None
    ∧ Launch.reports_of "foo" s = []
    ∧ Chan.buf (Launch.errs s) = []
    ∧ Group.returned (Part_002.Run Active g []) = None.
Proof.
  intros g outs. eexists. split; [vm_compute; reflexivity|].
  split; [reflexivity|]. split; [reflexivity|]. split; reflexivity.
Qed.

(** * Further properties of the runner core *)

Section GroupMore.
Import Group.
Context {R : Type}.
Implicit Types (g : gmap string R) (st : state) (gerr : groupErr) (b : bool)
  (evs : list event).

(** Events offered after the loop has ended are never looked at. *)
Lemma loop_ended_more b : ∀ evs n st more,
  (∀ st', loop b n st evs ≠ Waiting st') →
  loop b n st (evs ++ more) = loop b n st evs.
Proof.
  induction evs as [|ev evs IH]; intros n st more Hend.
  - destruct n as [|n]; [by rewrite !loop_no_members|].
    by destruct (Hend st).
  - destruct n as [|n]; [by rewrite !loop_no_members|].
    destruct ev as [gerr|]; simpl in *.
    + by apply IH.
    + destruct (exitTimeout st); [reflexivity|]. by apply (IH (S n)).
Qed.

(** X3.  Once a Group invocation has returned, its result, its final state
    and its trace are the same whatever is offered afterwards. *)
Theorem Group_run_result_is_final (inCtx : context) g b evs more :
  returned (Part_002.run inCtx g b evs) ≠ None →
  Part_002.run inCtx g b (evs ++ more) = Part_002.run inCtx g b evs.
Proof.
  intros Hret. unfold Part_002.run in *.
  rewrite loop_ended_more; [reflexivity|].
  intros st' Hw. rewrite Hw in Hret. by apply Hret.
Qed.

Lemma loop_completed_cause g n evs st :
  loop true (S n) (init g) evs = Completed st → cause st ≠ None.
Proof.
  intros H. apply loop_completed in H as (gerrs & Hlen & -> & _).
  destruct gerrs as [|gerr gerrs]; [discriminate|]. simpl.
  destruct (first_report_cause g gerr) as [Hc _].
  by rewrite (received_keeps_cause true gerrs _ _ Hc).
Qed.

(** X1.  [Group.Run] of a Group with members never returns nil for lack of
    a reason: in the earlier variant it never returns nil at all, in the
    later one only when the caller's context reports [context.Canceled]. *)
Theorem Group_Run_nil_only_when_cancelled (inCtx : context) g evs :
  0 < size g →
  returned (Part_001.run g true evs) ≠ Some None
  ∧ (returned (Part_002.Run inCtx g evs) = Some None →
     Err inCtx = Some Canceled).
Proof.
  intros Hpos. unfold Part_002.Run, Part_002.run, Part_001.run.
  destruct (size g) as [|n]; [lia|].
  pose proof (loop_completed_cause g n evs) as Hc.
  destruct (loop true (S n) (init g) evs) as [st|st|st]; simpl.
  - specialize (Hc st eq_refl). split.
    + intros [= Hn]. by apply Hc.
    + case_decide as Hcan; [done|]. simpl. intros [= Hn]. by destruct Hc.
  - split; [discriminate|]. discriminate.
  - split; discriminate.
Qed.

(** With no cause and no timer, the loop takes reports until it has had one
    per member, and waits for ever when fewer come. *)
Lemma loop_nil_reports : ∀ evs n st,
  (∀ gerr, Report gerr ∈ evs → err gerr = None) →
  cause st = None → exitTimeout st = false →
  ∃ st', cause st' = None ∧ cancelled st' = cancelled st
         ∧ trace st' = trace st ++ (Received <$> take n (reports evs))
         ∧ loop false n st evs =
             if decide (n ≤ length (reports evs)) then Completed st'
             else Waiting st'.
Proof.
  induction evs as [|ev evs IH]; intros n st Hnil Hc Ht.
  - exists st. split; [done|]. split; [done|].
    change (reports []) with (@nil string).
    rewrite take_nil, app_nil_r. split; [done|].
    destruct n as [|n];
      [rewrite decide_True by (simpl; lia) | rewrite decide_False by (simpl; lia)];
      reflexivity.
  - destruct n as [|n].
    + exists st. rewrite loop_no_members, take_0, app_nil_r.
      split; [done|]. split; [done|]. split; [done|].
      rewrite decide_True by lia. reflexivity.
    + destruct ev as [gerr|]; simpl.
      * assert (He : err gerr = None) by (apply Hnil; left).
        destruct (IH n (receive false gerr st)) as (st' & Hc' & Hd' & Htr & Hl).
        { intros gerr' Hin. apply Hnil. by right. }
        { by rewrite receive_cause, Hc, He. }
        { by rewrite receive_exitTimeout, receive_cause, Hc, He. }
        exists st'. split; [done|]. split.
        { rewrite Hd', receive_cancelled, receive_cause, Hc, He. done. }
        split.
        -- rewrite Htr, receive_trace, receive_cause, Hc, He.
           change (reports (Report gerr :: evs))
             with (runner gerr :: reports evs).
           rewrite <- app_assoc. reflexivity.
        -- rewrite Hl. change (reports (Report gerr :: evs))
             with (runner gerr :: reports evs).
           destruct (decide (n ≤ length (reports evs)));
             [rewrite decide_True by (simpl; lia)
             |rewrite decide_False by (simpl; lia)]; reflexivity.
      * rewrite Ht.
        destruct (IH (S n) st) as (st' & Hc' & Hd' & Htr & Hl); [|done|done|].
        { intros gerr' Hin. apply Hnil. by right. }
        exists st'. done.
Qed.

(** X2.  In a Group built [WithoutCancel] whose members all return nil,
    nothing is cancelled and no timer is armed while it runs: the call
    returns nil as soon as it has received one report per member, whatever
    the caller's context, and it never returns when fewer reports come. *)
Theorem WithoutCancel_all_nil (inCtx : context) g evs :
  (∀ gerr, Report gerr ∈ evs → err gerr = None) →
  let res := Part_002.WithoutCancel inCtx g evs in
  (size g ≤ length (reports evs) →
     returned res = Some None
     ∧ trace (final res) =
         (Received <$> take (size g) (reports evs)) ++ [Result None; Cancel])
  ∧ (length (reports evs) < size g →
       returned res = None
       ∧ trace (final res) = Received <$> reports evs
       ∧ cancelled (final res) = false).
Proof.
  intros Hnil res. subst res. unfold Part_002.WithoutCancel, Part_002.run.
  destruct (loop_nil_reports evs (size g) (init g) Hnil eq_refl eq_refl)
    as (st & Hc & Hd & Htr & ->).
  split; intros Hn.
  - rewrite decide_True by done.
    case_decide; simpl; rewrite ?Hc, Htr; simpl; rewrite <- app_assoc; done.
  - rewrite decide_False by lia. simpl. split; [done|].
    rewrite Htr, Hd. simpl. rewrite take_ge by lia. done.
Qed.
End GroupMore.

Lemma Group_run_result_is_final_witness :
  let g : gmap string unit := <["foo" := tt]> ∅ in
  let evs := [Group.Report (Group.GroupErr "foo" (Some (errorString "inner")))] in
  Part_002.run Active g true (evs ++ [Group.Fire ["foo"]; Group.Report (Group.GroupErr "foo" None)])
  = Part_002.run Active g true evs.
Proof.
  intros g evs. apply Group_run_result_is_final. vm_compute. discriminate.
Defined.

Lemma Group_Run_nil_only_when_cancelled_witness :
  let g : gmap string unit := <["foo" := tt]> ∅ in
  let evs := [Group.Report (Group.GroupErr "foo" None)] in
  Group.returned (Part_001.run g true evs) ≠ Some None
  ∧ (Group.returned (Part_002.Run CtxCanceled g evs) = Some None →
     Err CtxCanceled = Some Canceled).
Proof.
  intros g evs. apply Group_Run_nil_only_when_cancelled. vm_compute. lia.
Defined.

(** The test "don't cancel on early return" with "bar" never reporting. *)
Lemma WithoutCancel_all_nil_witness :
  let g : gmap string unit := <["foo" := tt]> (<["bar" := tt]> ∅) in
  let evs := [Group.Report (Group.GroupErr "foo" None); Group.Fire ["bar"; "foo"]] in
  let res := Part_002.WithoutCancel Active g evs in
  Group.returned res = None
  ∧ Group.trace (Group.final res) = Group.Received <$> Group.reports evs
  ∧ Group.cancelled (Group.final res) = false.
Proof.
  intros g evs res.
  refine (proj2 (WithoutCancel_all_nil Active g evs _) _).
  - intros gerr Hin. apply elem_of_cons in Hin as [[= ->]|Hin]; [reflexivity|].
    apply elem_of_cons in Hin as [Hin|Hin]; [discriminate|].
    by apply elem_of_nil in Hin.
  - vm_compute. lia.
Defined.

Section TimerMore.
Import Group.
Context {R : Type}.
Implicit Types (g : gmap string R) (st : state) (gerr : groupErr) (b : bool).

(** How often [e] occurs in a trace. *)
Lemma count_app (e : effect) (tr1 tr2 : list effect) :
  length (filter (λ x, x = e) (tr1 ++ tr2)) =
  length (filter (λ x, x = e) tr1) + length (filter (λ x, x = e) tr2).
Proof. rewrite filter_app, length_app. reflexivity. Qed.

Lemma receive_counts b gerr st :
  let n e := length (filter (λ x, x = e) (trace st)) in
  let n' e := length (filter (λ x, x = e) (trace (receive b gerr st))) in
  match cause (receive b gerr st) with
  | Some _ => n' Cancel = S (n Cancel) ∧ n' After = S (n After)
  | None => n' Cancel = n Cancel ∧ n' After = n After
  end.
Proof.
  intros n n'. subst n n'. rewrite receive_trace.
  pose proof (receive_cause b gerr st) as Hc.
  destruct (cause st) as [c|] eqn:Hst.
  - rewrite Hc, !count_app. simpl. lia.
  - destruct (cause (receive b gerr st)) as [c|]; rewrite !count_app; simpl; lia.
Qed.

Lemma received_counts_none b gerrs : ∀ g,
  cause (received b gerrs (init g)) = None →
  length (filter (λ x, x = Cancel) (trace (received b gerrs (init g)))) = 0
  ∧ length (filter (λ x, x = After) (trace (received b gerrs (init g)))) = 0.
Proof.
  induction gerrs as [|gerr gerrs IH] using rev_ind; intros g Hc; [done|].
  rewrite received_snoc in *.
  pose proof (receive_counts b gerr (received b gerrs (init g))) as Hn.
  simpl in Hn. rewrite Hc in Hn.
  rewrite receive_cause in Hc.
  destruct (cause (received b gerrs (init g))) eqn:Hp; [discriminate|].
  destruct (IH g Hp) as [H1 H2]. lia.
Qed.

(** X4.  From the report that sets the cause on, every report received
    cancels the derived context again and starts a new shutdown timer: the
    timeout runs from the latest report, not from the first one. *)
Theorem timer_rearmed_by_every_report g b pre gerr post :
  cause (received b pre (init g)) = None →
  cause (received b (pre ++ [gerr]) (init g)) ≠ None →
  let st := received b (pre ++ gerr :: post) (init g) in
  length (filter (λ x, x = After) (trace st)) = S (length post)
  ∧ length (filter (λ x, x = Cancel) (trace st)) = S (length post)
  ∧ exitTimeout st = true.
Proof.
  intros Hnone Hsome.
  induction post as [|p post IH] using rev_ind; intros st; subst st.
  - destruct (received_counts_none b pre g Hnone) as [H1 H2].
    rewrite received_snoc in *.
    pose proof (receive_counts b gerr (received b pre (init g))) as Hn.
    simpl in Hn. rewrite receive_exitTimeout.
    destruct (cause (receive b gerr (received b pre (init g)))); [|done].
    simpl. split_and!; [lia | lia | done].
  - replace (pre ++ gerr :: post ++ [p]) with ((pre ++ gerr :: post) ++ [p])
      by (rewrite <- app_assoc; reflexivity).
    rewrite received_snoc. simpl in IH. destruct IH as (H1 & H2 & H3).
    pose proof (receive_counts b p (received b (pre ++ gerr :: post) (init g)))
      as Hn. simpl in Hn.
    assert (Hc : cause (received b (pre ++ gerr :: post) (init g)) ≠ None).
    { replace (pre ++ gerr :: post) with ((pre ++ [gerr]) ++ post)
        by (rewrite <- app_assoc; reflexivity).
      unfold received. rewrite foldl_app. fold (received b (pre ++ [gerr]) (init g)).
      destruct (cause (received b (pre ++ [gerr]) (init g))) as [c|] eqn:Hcc;
        [|done].
      fold (received b post (received b (pre ++ [gerr]) (init g))).
      by rewrite (received_keeps_cause b post _ c Hcc). }
    rewrite receive_exitTimeout.
    rewrite receive_cause in Hn |- *.
    destruct (cause (received b (pre ++ gerr :: post) (init g))); [|done].
    rewrite length_app. simpl. split_and!; [lia | lia | done].
Qed.
End TimerMore.

Lemma timer_rearmed_by_every_report_witness :
  let g : gmap string unit := <["foo" := tt]> (<["bar" := tt]> (<["baz" := tt]> ∅)) in
  let foo := Group.GroupErr "foo" (Some (errorString "inner")) in
  let post := [Group.GroupErr "bar" None; Group.GroupErr "baz" None] in
  let st := Group.received true ([] ++ foo :: post) (Group.init g) in
  length (filter (λ x, x = Group.After) (Group.trace st)) = 3
  ∧ length (filter (λ x, x = Group.Cancel) (Group.trace st)) = 3
  ∧ Group.exitTimeout st = true.
Proof.
  intros g foo post.
  apply (timer_rearmed_by_every_report g true [] foo post).
  - reflexivity.
  - vm_compute. discriminate.
Defined.

Section SequenceMore.
Context {C W : Type}.
Implicit Types (s : list (Runner C W)) (ctx : C) (w : W).
Import Sequence.

Lemma loop_panic pre : ∀ n i r post ctx w w1 w2 p log,
  all_nil pre ctx w = Some w1 →
  r ctx w1 = (Panic p, w2) →
  loop n i (pre ++ r :: post) ctx w log =
    (Panic p, w2, log ++ in_order ctx i (S (length pre))).
Proof.
  induction pre as [|r0 pre IH]; intros n i r post ctx w w1 w2 p log Hall Hr;
    simpl in *.
  - injection Hall as ->. rewrite Hr. reflexivity.
  - destruct (r0 ctx w) as [[[e0|]|p0|] w0]; try discriminate.
    rewrite (IH n (S i) r post ctx w0 w1 w2 p _ Hall Hr).
    rewrite (in_order_cons ctx i), <- app_assoc. reflexivity.
Qed.

(** X5.  [Sequence.Run] does not recover: when a member panics after the
    members before it returned nil, the call ends with that very panic,
    not with an error, the world is as the panicking member left it, and
    no later member is called. *)
Theorem Sequence_panic_propagates s ctx w pre r post w1 w2 p :
  s = pre ++ r :: post →
  all_nil pre ctx w = Some w1 →
  r ctx w1 = (Panic p, w2) →
  Run s ctx w = (Panic p, w2, in_order ctx 0 (S (length pre)))
  ∧ ∀ j, length pre < j → times_run j (Run s ctx w).2 = 0.
Proof.
  intros -> Hall Hr. unfold Run.
  rewrite (loop_panic pre _ 0 r post ctx w w1 w2 p [] Hall Hr). simpl.
  split; [reflexivity|].
  intros j Hj.
  change ((0, ctx) :: in_order ctx 1 (length pre))
    with (in_order ctx 0 (S (length pre))).
  rewrite times_run_in_order. case_decide; [lia | reflexivity].
Qed.

(** A nested Sequence behaves, for success and for the world, like its
    members written in line. *)
Lemma all_nil_app s1 : ∀ s2 ctx w,
  all_nil (s1 ++ s2) ctx w =
    match all_nil s1 ctx w with
    | Some w1 => all_nil s2 ctx w1
    | None => None
    end.
Proof.
  induction s1 as [|r s1 IH]; intros s2 ctx w; simpl; [reflexivity|].
  destruct (r ctx w) as [[[e|]|p|] w1]; try reflexivity. apply IH.
Qed.

Lemma Run_nil_iff s ctx w w' :
  (Run s ctx w).1 = (Return None, w') ↔ all_nil s ctx w = Some w'.
Proof.
  split.
  - unfold Run. generalize (length s) 0 (@nil (nat * C)).
    revert w. induction s as [|r s IH]; intros w n i log; simpl.
    + by intros [= ->].
    + destruct (r ctx w) as [[[e|]|p|] w1]; simpl; try discriminate.
      apply IH.
  - intros H. unfold Run. by rewrite (loop_all_nil s _ 0 ctx w w' [] H).
Qed.

(** X6.  Sequences nest: a Sequence whose members are Sequences returns nil
    exactly when the members of those, run in one Sequence in the same
    order, return nil, and it leaves the same world. *)
Theorem Sequence_nested_flat (ss : list (list (Runner C W))) ctx w w' :
  (Run (runner <$> ss) ctx w).1 = (Return None, w')
  ↔ (Run (concat ss) ctx w).1 = (Return None, w').
Proof.
  rewrite !Run_nil_iff. revert w.
  induction ss as [|s ss IH]; intros w; simpl; [reflexivity|].
  rewrite all_nil_app. unfold runner at 1.
  destruct (Run s ctx w) as [[o w1] log] eqn:HR.
  destruct (all_nil s ctx w) as [w2|] eqn:Hs.
  - apply Run_nil_iff in Hs. rewrite HR in Hs. simpl in Hs.
    injection Hs as -> ->. apply IH.
  - destruct o as [[e|]|p|]; try (split; discriminate).
    assert (Hn : (Run s ctx w).1 = (Return None, w1)) by (by rewrite HR).
    apply Run_nil_iff in Hn. congruence.
Qed.
End SequenceMore.

(** A member that panics between two that count. *)
Lemma Sequence_panic_propagates_witness :
  let addOne : Runner unit nat := λ _ c, (Return None, S c) in
  let panics : Runner unit nat := λ _ c, (Panic (PValue "eek"), c) in
  Sequence.Run [addOne; panics; addOne] tt 0 =
    (Panic (PValue "eek"), 1, Sequence.in_order tt 0 2)
  ∧ ∀ j, 1 < j →
      Sequence.times_run j (Sequence.Run [addOne; panics; addOne] tt 0).2 = 0.
Proof.
  intros addOne panics.
  exact (Sequence_panic_propagates [addOne; panics; addOne] tt 0
           [addOne] panics [addOne] 1 1 (PValue "eek")
           eq_refl eq_refl eq_refl).
Defined.

Section DetachedMore.
Import Detached.

(** X7.  The goroutine of [Go] never dies of a panic.  When [r.Run]
    returns it sends exactly one value on [res], what [Run] returned, nil
    included.  When [r.Run] panics it sends exactly one value, an error
    whose text is "run.Go recover: " followed by the text of the panic
    value, and which wraps that value when it is an error.  When [r.Run]
    ends the goroutine with [runtime.Goexit] it sends nothing. *)
Theorem Go_sends_once (o : outcome) :
  ¬ crashes (Go o)
  ∧ sent (Go o) =
      match o with
      | Return e => [e]
      | Panic (PError pe) =>
          [Some (wrapError ("run.Go recover: " +:+ Error pe) pe)]
      | Panic (PValue v) => [Some (errorString ("run.Go recover: " +:+ v))]
      | Goexit => []
      end
  ∧ (∀ pe, o = Panic (PError pe) →
       ∃ x, sent (Go o) = [Some x] ∧ Is x pe = true).
Proof.
  split; [|split].
  - destruct o as [e|[pe|v]|]; intros H; by apply H.
  - destruct o as [e|[pe|v]|]; reflexivity.
  - intros pe ->. eexists. split; [reflexivity|].
    apply Is_wrapError, Is_refl.
Qed.
End DetachedMore.

Section StartMore.
Import Starting.
Implicit Types (inCtx : context) (runner ready : Runner unit context)
  (evs : list Group.event).

(** What the closure returns, from what the Group's call does. *)
Lemma stop_returned (res : Group.result) :
  stop res tt =
    match Group.returned res with
    | Some (Some e) =>
        Ret (Some (wrapError
               ("run.Start: runner shutdown with error: " +:+ Error e) e))
    | Some None => Ret None
    | None => Hang
    end.
Proof.
  unfold stop, from_done. destruct (Group.returned res) as [[e|]|]; reflexivity.
Qed.

(** X8.  When the probe returns nil while the context is live, [Start]
    returns no error and a closure.  Called, the closure returns nil when
    the Group returned nil, an error "run.Start: runner shutdown with
    error: ..." wrapping the Group's error when it returned one, and does
    not return as long as the Group does not. *)
Theorem Start_ready_and_stop inCtx (now0 : context) runner ready evs c :
  ready tt now0 = (Return None, c) → Err c = None →
  ∃ stop_,
    Start inCtx now0 runner ready evs = Ret (None, Some stop_)
    ∧ match Group.returned (Part_002.Run inCtx (Ready runner ready) evs) with
      | Some (Some e) =>
          ∃ x, stop_ tt = Ret (Some x) ∧ Is x e = true
               ∧ Error x = "run.Start: runner shutdown with error: " +:+ Error e
      | Some None => stop_ tt = Ret None
      | None => stop_ tt = Hang
      end.
Proof.
  intros Hr Hc. eexists. split.
  - rewrite Start_readych, ready_sequence_readych, Hr, Hc. reflexivity.
  - rewrite stop_returned.
    destruct (Group.returned (Part_002.Run inCtx (Ready runner ready) evs))
      as [[e|]|]; try reflexivity.
    eexists. split; [reflexivity|]. split; [apply Is_wrapError, Is_refl | reflexivity].
Qed.

(** X9.  The later variant of the Group returns nil when its loop has run
    out and its context, which is [Start]'s, reports [context.Canceled].
    So when the closure is called while the Group is running, errors that
    the members return on shutdown do not reach the caller: the closure
    returns nil, whatever cause the Group recorded. *)
Theorem stop_swallows_shutdown_errors runner ready evs st :
  Group.loop true (size (Ready runner ready)) (Group.init (Ready runner ready)) evs
    = Group.Completed st →
  stop (Part_002.Run CtxCanceled (Ready runner ready) evs) tt = Ret None.
Proof.
  intros Hloop. rewrite stop_returned. unfold Part_002.Run, Part_002.run.
  rewrite Hloop, decide_True by reflexivity. reflexivity.
Qed.

(** X10.  When the probe returns nil but the context is already done,
    [Start] returns an error and no closure once the Group has returned.
    The error is never nil, but it wraps the Group's error only when there
    is one: after [Start]'s own [cancel()] the later variant of the Group
    returns nil when its loop has run out, and the error then reads
    "runner not ready: %!w(<nil>)" and wraps nothing. *)
Theorem Start_not_ready_loses_cause (now0 : context) runner ready evs c e st :
  ready tt now0 = (Return None, c) → Err c = Some e →
  Group.loop true (size (Ready runner ready)) (Group.init (Ready runner ready)) evs
    = Group.Completed st →
  Start CtxCanceled now0 runner ready evs =
    Ret (Some (errorString "runner not ready: %!w(<nil>)"), None)
  ∧ ∀ target, target ≠ errorString "runner not ready: %!w(<nil>)" →
      Is (errorString "runner not ready: %!w(<nil>)") target = false.
Proof.
  intros Hr Hc Hloop. split.
  - rewrite Start_readych, ready_sequence_readych, Hr, Hc.
    unfold from_done, Part_002.Run, Part_002.run.
    rewrite Hloop, decide_True by reflexivity. reflexivity.
  - intros target Hne. simpl. by rewrite decide_False.
Qed.
End StartMore.

(** The probe succeeds at once; the runner fails when it is cancelled, the
    sequence of the probe ends, and the Group's loop runs out. *)
Lemma Start_ready_and_stop_witness :
  let probe : Runner unit context := λ _ c, (Return None, c) in
  let evs := [Group.Report (Group.GroupErr "runner" (Some (errorString "inner")));
              Group.Report (Group.GroupErr "ready" None)] in
  ∃ stop_,
    Starting.Start Active Active probe probe evs = Ret (None, Some stop_)
    ∧ match Group.returned (Part_002.Run Active (Starting.Ready probe probe) evs) with
      | Some (Some e) =>
          ∃ x, stop_ tt = Ret (Some x) ∧ Is x e = true
               ∧ Error x = "run.Start: runner shutdown with error: " +:+ Error e
      | Some None => stop_ tt = Ret None
      | None => stop_ tt = Hang
      end.
Proof.
  intros probe evs.
  exact (Start_ready_and_stop Active Active probe probe evs Active eq_refl eq_refl).
Defined.

Lemma stop_swallows_shutdown_errors_witness :
  let probe : Runner unit context := λ _ c, (Return None, c) in
  let evs := [Group.Report (Group.GroupErr "runner" (Some (errorString "inner")));
              Group.Report (Group.GroupErr "ready" None)] in
  Starting.stop (Part_002.Run CtxCanceled (Starting.Ready probe probe) evs) tt
  = Ret None.
Proof.
  intros probe evs.
  eapply (stop_swallows_shutdown_errors probe probe evs).
  vm_compute. reflexivity.
Defined.

Lemma Start_not_ready_loses_cause_witness :
  let probe : Runner unit context := λ _ c, (Return None, c) in
  let evs := [Group.Report (Group.GroupErr "runner" (Some (errorString "inner")));
              Group.Report (Group.GroupErr "ready" None)] in
  Starting.Start CtxCanceled CtxCanceled probe probe evs =
    Ret (Some (errorString "runner not ready: %!w(<nil>)"), None)
  ∧ ∀ target, target ≠ errorString "runner not ready: %!w(<nil>)" →
      Is (errorString "runner not ready: %!w(<nil>)") target = false.
Proof.
  intros probe evs.
  eapply (Start_not_ready_loses_cause CtxCanceled probe probe evs CtxCanceled).
  - reflexivity.
  - reflexivity.
  - vm_compute. reflexivity.
Defined.

(** * onexit *)

Section OnexitText.
Import Onexit.
Import Stdlib.Strings.Ascii.







(** Commands that leave the shell as it is; after [exit 0] the loop does
    not go on. *)
Example script_no_cancel :
  script (λ c (_ : unit), if decide (c = "exit 0") then None else Some tt) tt
    (unlines ["exit:echo hi "; "exit:echo ho"; "cancel:0"; "bogus";
              "exit:  echo hu"; "cancel:7"; "exit:exit 0"; "exit:echo last"])
  = Some ["echo ho"; "  echo hu"; "exit 0"].
Proof. vm_compute. reflexivity. Qed.
End OnexitText.


Section OnexitNumbers.
Import Onexit.
Import Stdlib.Strings.Ascii.









End OnexitNumbers.


Section OnexitScript.
Import Onexit.
Import Stdlib.Strings.Ascii.









Lemma wrap64_small (z : Z) :
  (- 2 ^ 63 ≤ z < 2 ^ 63)%Z → wrap64 z = z.
Proof. intros Hz. unfold wrap64. rewrite Z.mod_small; lia. Qed.





End OnexitScript.


Section OnexitProgram.
Import Onexit.
Import Stdlib.Strings.Ascii.




(** The Go side alone: the pipe of a Killer nobody closed is open, and the
    [cancel] functions hold the numbers 0, 1, 2, ... in the order in which
    they were returned. *)
Lemma run_numbers (calls : list call) :
  (Z.of_nat (length calls) < 2 ^ 63)%Z →
  closed (run calls).1 = false
  ∧ seq (run calls).1 = (Z.of_nat (length (run calls).2) - 1)%Z
  ∧ (run calls).2 = Z.of_nat <$> List.seq 0 (length (run calls).2)
  ∧ length (run calls).2 ≤ length calls.
Proof.
  induction calls as [|c calls IH] using rev_ind; intros Hlen.
  - by split_and!.
  - rewrite length_app in Hlen. cbn [length] in Hlen.
    destruct IH as (Hopen & Hseq & Hcancels & Hle); [lia|].
    unfold run in *. rewrite foldl_app. cbn [foldl].
    destruct (foldl exec (NewKiller, []) calls) as [k cancels].
    cbn [fst snd] in Hopen, Hseq, Hcancels, Hle.
    rewrite length_app. cbn [length].
    destruct c as [command|n]; cbn [exec].
    + unfold queue, send. cbn [closed written seq]. rewrite Hopen.
      rewrite wrap64_small by lia. cbn [fst snd closed written seq].
      rewrite length_app. cbn [length]. split_and!; [done|lia| |lia].
      rewrite Nat.add_1_r, seq_S, fmap_app, <- Hcancels. cbn.
      do 2 f_equal. lia.
    + destruct (cancels !! n) as [s|]; cbn [fst snd].
      * unfold dequeue, send. rewrite Hopen. cbn [fst snd closed written seq].
        split_and!; [done|done|done|lia].
      * split_and!; [done|done|done|lia].
Qed.

(** X12 (newline in a command).  The protocol is line based and [queue]
    writes the command as it is.  While fewer than 2^63 calls have been
    made and the pipe is open, queuing the text [b], a newline and
    [cancel:n] writes the very bytes that queuing [b] and then calling the
    [cancel] function number [n] writes, [n] being the number of a command
    queued before or of [b] itself: the lines [exit:b] and [cancel:n].  The
    script cannot tell the two apart, and treats command [n] as cancelled
    although the program never cancelled it. *)
Theorem OnExit_newline_splits (calls : list call) (b : string) (n : nat) :
  (Z.of_nat (length calls) + 1 < 2 ^ 63)%Z →
  n ≤ length (run calls).2 →
  let injected := b +:+ String newline ("cancel:" +:+ fmt_int (Z.of_nat n)) in
  written (run (calls ++ [CallOnExit injected])).1
  = written (run (calls ++ [CallOnExit b; CallCancel n])).1
  ∧ written (run (calls ++ [CallOnExit injected])).1
    = written (run calls).1 +:+ "exit:" +:+ b +:+ String newline ""
      +:+ "cancel:" +:+ fmt_int (Z.of_nat n) +:+ String newline "".
Proof.
  intros Hlen Hn injected.
  destruct (run_numbers calls) as (Hopen & Hseq & Hcancels & Hle); [lia|].
  unfold run in *. rewrite !foldl_app. cbn [foldl].
  destruct (foldl exec (NewKiller, []) calls) as [k cancels].
  cbn [fst snd] in Hopen, Hseq, Hcancels, Hn, Hle.
  assert (Hwritten : written (exec (k, cancels) (CallOnExit injected)).1
            = written k +:+ "exit:" +:+ b +:+ String newline ""
              +:+ "cancel:" +:+ fmt_int (Z.of_nat n) +:+ String newline "").
  { cbn [exec]. unfold queue, send. cbn [closed written seq]. rewrite Hopen.
    cbn [fst written op_string]. unfold injected.
    change (String newline ("cancel:" +:+ fmt_int (Z.of_nat n)))
      with (String newline "" +:+ ("cancel:" +:+ fmt_int (Z.of_nat n))).
    rewrite !append_assoc. reflexivity. }
  split; [|exact Hwritten]. rewrite Hwritten.
  cbn [exec]. unfold queue, send. cbn [closed written seq]. rewrite Hopen.
  rewrite wrap64_small by lia. cbn [fst snd].
  assert (Hlook : (cancels ++ [(seq k + 1)%Z]) !! n = Some (Z.of_nat n)).
  { destruct (decide (n < length cancels)) as [Hlt|Hge].
    - rewrite lookup_app_l by done. rewrite Hcancels.
      rewrite list_lookup_fmap, lookup_seq_lt by done. done.
    - assert (n = length cancels) as -> by lia.
      rewrite lookup_app_r, Nat.sub_diag by done. cbn. f_equal. lia. }
  cbn [exec]. rewrite Hlook. unfold dequeue, send. cbn [closed written seq snd fst].
  cbn [op_string]. rewrite !append_assoc. reflexivity.
Qed.

Lemma OnExit_newline_splits_witness :
  let calls := [CallOnExit "rm -rf /tmp/work"; CallOnExit "echo bye"] in
  let injected := "true" +:+ String newline ("cancel:" +:+ fmt_int (Z.of_nat 0)) in
  written (run (calls ++ [CallOnExit injected])).1
  = written (run (calls ++ [CallOnExit "true"; CallCancel 0])).1
  ∧ written (run (calls ++ [CallOnExit injected])).1
    = unlines ["exit:rm -rf /tmp/work"; "exit:echo bye"; "exit:true"; "cancel:0"].
Proof.
  intros calls injected.
  destruct (OnExit_newline_splits calls "true" 0) as [H1 H2];
    [reflexivity | vm_compute; lia |].
  split; [exact H1|]. etransitivity; [exact H2|]. reflexivity.
Defined.

Lemma closed_send op data k :
  closed k = true → send op data k = (Some (ErrClosed "write"), k).
Proof. intros H. unfold send. by rewrite H. Qed.

Lemma closed_exec k cancels c :
  closed k = true →
  closed (exec (k, cancels) c).1 = true
  ∧ written (exec (k, cancels) c).1 = written k.
Proof.
  intros H. destruct c as [command|n]; cbn [exec].
  - unfold queue. rewrite closed_send by done. cbn [fst]. done.
  - destruct (cancels !! n); [|done].
    unfold dequeue. by rewrite closed_send.
Qed.

(** X13 (after Close).  Once the pipe is closed nothing is written any
    more: [OnExit] returns no [cancel] function and an error that wraps the
    error of the write, a [cancel] function obtained earlier returns that
    error, and whatever calls follow the script is left with what it had
    been sent before: a cancellation that comes too late does not reach
    it. *)
Theorem closed_Killer_writes_nothing (k : Killer) (cancels : list Z)
    (calls : list call) :
  closed k = true →
  written (foldl exec (k, cancels) calls).1 = written k
  ∧ (∀ command, ∃ err,
       (OnExit command k).1 = (None, Some err)
       ∧ Is err (ErrClosed "write") = true
       ∧ written (OnExit command k).2 = written k)
  ∧ (∀ s, dequeue s k = (Some (ErrClosed "write"), k)).
Proof.
  intros Hc. split_and!.
  - revert k cancels Hc.
    induction calls as [|c calls IH]; intros k cancels Hc; [reflexivity|].
    cbn [foldl].
    destruct (closed_exec k cancels c Hc) as [Hc' Hw'].
    destruct (exec (k, cancels) c) as [k' cancels'].
    cbn [fst] in Hc', Hw'. by rewrite IH.
  - intros command. unfold OnExit, queue. rewrite closed_send by done.
    eexists. split_and!; [reflexivity| |reflexivity].
    apply Is_Errorf_w, Is_refl.
  - intros s. unfold dequeue. by apply closed_send.
Qed.

Lemma closed_Killer_writes_nothing_witness :
  let st := run [CallOnExit "rm -f /tmp/a"] in
  let k := (Close st.1).2 in
  written (foldl exec (k, st.2) [CallCancel 0; CallOnExit "echo late"]).1
    = written k
  ∧ written k = unlines ["exit:rm -f /tmp/a"].
Proof.
  intros st k. split; [|reflexivity].
  apply (closed_Killer_writes_nothing k st.2
           [CallCancel 0; CallOnExit "echo late"]).
  reflexivity.
Defined.

(** X14 (Kill goes to the default Killer).  [(k *Killer).Kill] calls the
    package-level [OnExitF]: whatever Killer it is called on, while the pipe
    of [DefaultKiller] is open the command
    [echo killing <desc>; kill -<signal> <pid>] is queued on
    [DefaultKiller], with signal 2 (SIGINT) when none is given, and a Killer
    [k] other than the default one is left as it was. *)
Theorem Kill_queues_on_DefaultKiller (k : nat) (quoted : string) (pid : Z)
    (sig : list Z) (h : gmap nat Killer) (d : Killer) :
  h !! DefaultKiller = Some d → closed d = false → k ≠ DefaultKiller →
  let h' := (Kill k quoted pid sig h).2 in
  h' !! k = h !! k
  ∧ ∃ d', h' !! DefaultKiller = Some d'
          ∧ written d' =
              written d +:+ "exit:echo killing " +:+ quoted +:+ "; kill -"
              +:+ fmt_int (default 2%Z (head sig)) +:+ " " +:+ fmt_int pid
              +:+ String newline "".
Proof.
  intros Hd Hopen Hk. unfold Kill, OnExitF, at_. rewrite Hd.
  unfold OnExit, queue, send. cbn [closed written seq]. rewrite Hopen.
  cbn [snd]. split.
  - by rewrite lookup_insert_ne.
  - eexists. split; [by rewrite lookup_insert_eq|]. cbn [written op_string].
    destruct sig as [|s sig]; cbn [head default];
      rewrite !append_assoc; reflexivity.
Qed.

Lemma Kill_queues_on_DefaultKiller_witness :
  let h : gmap nat Killer := <[1 := NewKiller]> (<[DefaultKiller := NewKiller]> ∅) in
  let h' := (Kill 1 "server" 4242 [] h).2 in
  h' !! 1 = h !! 1
  ∧ ∃ d', h' !! DefaultKiller = Some d'
          ∧ written d' =
              written NewKiller +:+ "exit:echo killing " +:+ "server" +:+ "; kill -"
              +:+ fmt_int (default 2%Z (head [])) +:+ " " +:+ fmt_int 4242
              +:+ String newline "".
Proof.
  intros h. apply (Kill_queues_on_DefaultKiller 1 "server" 4242 [] h NewKiller);
    [reflexivity | reflexivity | discriminate].
Defined.
End OnexitProgram.


(** * ports *)

Section PortsStep.
Import Ports.
Local Open Scope Z_scope.

Lemma lor_1 (x : Z) : Z.lor x 1 = if Z.odd x then x else x + 1.
Proof.
  destruct (Z.Even_or_Odd x) as [[a ->]|[a ->]].
  - rewrite Z.odd_even. apply Z.bits_inj'. intros n Hn. rewrite Z.lor_spec.
    destruct (decide (n = 0)) as [->|Hne].
    + rewrite Z.testbit_even_0, Z.testbit_odd_0. reflexivity.
    + replace n with (Z.succ (n - 1)) by lia.
      rewrite Z.testbit_even_succ, Z.testbit_odd_succ by lia.
      rewrite (Z.bits_above_log2 1) by (simpl; lia).
      by rewrite orb_false_r.
  - rewrite Z.odd_odd. apply Z.bits_inj'. intros n Hn. rewrite Z.lor_spec.
    destruct (decide (n = 0)) as [->|Hne].
    + by rewrite Z.testbit_odd_0.
    + rewrite (Z.bits_above_log2 1 n) by (simpl; lia).
      by rewrite orb_false_r.
Qed.

Lemma divisible_false (n : Z) :
  divisible n = false → ∀ d, (1 < d < n)%Z → ¬ (d | n)%Z.
Proof.
  intros Hdiv d Hd [q Hq].
  assert (Hq1 : (1 < q)%Z) by nia.
  (* the cofactor or the divisor is at most n/2 *)
  assert (Hsmall : (2 ≤ q ≤ n `div` 2)%Z).
  { split; [lia|]. apply Z.div_le_lower_bound; [lia|]. nia. }
  unfold divisible in Hdiv.
  assert (Hex : existsb (λ i, bool_decide (n `mod` i = 0%Z))
                  (seqZ 2 (n `div` 2 - 1)) = true); [|congruence].
  apply existsb_exists. exists q. split.
  - apply list_elem_of_In, elem_of_seqZ. lia.
  - apply bool_decide_eq_true. subst n. rewrite Z.mul_comm. apply Z.mod_mul. lia.
Qed.

Lemma divisible_true (n : Z) :
  divisible n = true → ∃ d, (1 < d < n)%Z ∧ (d | n)%Z.
Proof.
  unfold divisible. intros H. apply existsb_exists in H as (i & Hi & Hmod).
  apply list_elem_of_In, elem_of_seqZ in Hi.
  apply bool_decide_eq_true in Hmod.
  exists i. split.
  - split; [lia|]. assert (n `div` 2 < n)%Z; [|lia].
    assert (0 < n)%Z.
    { destruct (decide (0 < n)%Z); [done|].
      assert (n `div` 2 ≤ 0)%Z; [|lia]. apply Z.div_le_upper_bound; lia. }
    apply Z.div_lt; lia.
  - apply Z.mod_divide; [lia|done].
Qed.

(** X15 (portStep).  The step that [portStep] returns is odd, lies between
    1 and portCount - 1, and is 1 or a prime: no number strictly between 1
    and the step divides it.  The loop returns at the first random number
    that gives such a step and at no other. *)
Theorem portStep_one_or_prime (rands : list Z) (n : Z) :
  portStep rands = Some n →
  Z.odd n = true ∧ (1 ≤ n < portCount)%Z
  ∧ (∀ d, (1 < d < n)%Z → ¬ (d | n)%Z)
  ∧ ∃ pre r post,
      rands = pre ++ r :: post ∧ n = Z.lor (r `mod` portCount) 1
      ∧ Forall (λ r', ∃ d, (1 < d < Z.lor (r' `mod` portCount) 1)%Z
                           ∧ (d | Z.lor (r' `mod` portCount) 1)%Z) pre.
Proof.
  induction rands as [|r rands IH]; [done|]. cbn [portStep].
  destruct (divisible (Z.lor (r `mod` portCount) 1)) eqn:Hdiv.
  - intros H.
    destruct (IH H) as (Hodd & Hrange & Hprime & pre & r' & post & -> & Hn & Hpre).
    split; [done|]. split; [done|]. split; [done|].
    exists (r :: pre), r', post. split; [done|]. split; [done|].
    constructor; [|done]. by apply divisible_true.
  - intros [= <-].
    assert (Hr : 0 ≤ r `mod` portCount < portCount).
    { apply Z.mod_pos_bound. reflexivity. }
    assert (Hlast : Z.odd (portCount - 1) = true) by reflexivity.
    assert (Hsplit : ∃ pre r0 post, r :: rands = pre ++ r0 :: post
              ∧ Z.lor (r `mod` portCount) 1 = Z.lor (r0 `mod` portCount) 1
              ∧ Forall (λ r', ∃ d, 1 < d < Z.lor (r' `mod` portCount) 1
                                   ∧ (d | Z.lor (r' `mod` portCount) 1)) pre).
    { by exists [], r, rands. }
    pose proof (divisible_false _ Hdiv) as Hprime. clear Hdiv.
    revert Hprime Hsplit. rewrite lor_1.
    destruct (Z.odd (r `mod` portCount)) eqn:Hodd; intros Hdiv Hsplit.
    + split; [done|]. split; [|done].
      destruct (decide (r `mod` portCount = 0)) as [H0|]; [|lia].
      by rewrite H0 in Hodd.
    + split; [by rewrite Z.odd_add, Hodd|]. split; [|done].
      destruct (decide (r `mod` portCount = portCount - 1)) as [H1|]; [|lia].
      rewrite H1 in Hodd. congruence.
Qed.

Lemma portStep_one_or_prime_witness :
  Z.odd 7 = true ∧ 1 ≤ 7 < portCount
  ∧ Forall (λ d, ¬ (d | 7)) (seqZ 2 5)
  ∧ portStep [8; 24590; 6] = Some 7.
Proof.
  destruct (portStep_one_or_prime [8; 24590; 6] 7 eq_refl)
    as (Hodd & Hrange & Hprime & _).
  split_and!; try done.
  apply Forall_seqZ. intros d Hd. apply Hprime. lia.
Defined.
End PortsStep.


Section PortsRandom.
Import Ports.
Local Open Scope Z_scope.
Variable step : Z.

Lemma portCount_val : portCount = 24576.
Proof. reflexivity. Qed.

Lemma port_in_range (x : Z) :
  portBase ≤ portBase + x `mod` portCount < portBase + portCount.
Proof.
  pose proof (Z.mod_pos_bound x portCount eq_refl). lia.
Qed.

Lemma nth_port_S (off : Z) (j : nat) :
  nth_port step off (S j) = nth_port step (off + step) j.
Proof. unfold nth_port. do 2 f_equal. lia. Qed.

Lemma nth_port_shift (off : Z) (k j : nat) :
  nth_port step off (k + j) = nth_port step (off + Z.of_nat k * step) j.
Proof. unfold nth_port. do 2 f_equal. lia. Qed.

(** Without wrap-around of the counter the [j]-th dial is to [nth_port]. *)
Lemma attempts_dialled (dial : nat → Z → option error) (n : nat) :
  ∀ i off,
  0 ≤ off → 0 ≤ step → off + Z.of_nat n * step < 2 ^ 64 →
  let r := attempts step dial n i off in
  (length (dialled r) ≤ n)%nat
  ∧ dialled r = nth_port step off <$> seq 0 (length (dialled r))
  ∧ offset r = off + Z.of_nat (length (dialled r)) * step.
Proof.
  induction n as [|n IH]; intros i off Hoff Hstep Hwrap.
  - cbn. split_and!; [done|done|lia].
  - cbn [attempts].
    assert (Hoff' : uint64 (off + step) = off + step).
    { unfold uint64. apply Z.mod_small. nia. }
    rewrite Hoff'.
    assert (Hport : portBase + (off + step) `mod` portCount = nth_port step off 0).
    { unfold nth_port. do 2 f_equal. lia. }
    destruct (dial i _) as [err|].
    + destruct (decide (err = Canceled)); cbn [dialled offset length];
        rewrite Hport; (split_and!; [lia|done|lia]).
    + cbn [dialled offset length].
      destruct (IH (S i) (off + step)) as (Hlen & Hd & Ho); [lia|lia|lia|].
      cbn zeta in Hlen, Hd, Ho.
      split_and!; [lia| |lia].
      cbn [seq fmap list_fmap]. rewrite Hport. f_equal.
      rewrite <- fmap_S_seq, <- list_fmap_compose.
      rewrite Hd at 1. apply list_fmap_ext. intros ? j ?. cbn.
      by rewrite nth_port_S.
Qed.

Lemma coprime_injective (off : Z) (j1 j2 : nat) :
  Z.gcd step portCount = 1 →
  Z.of_nat j1 < portCount → Z.of_nat j2 < portCount →
  nth_port step off j1 = nth_port step off j2 → j1 = j2.
Proof.
  intros Hgcd H1 H2. unfold nth_port. intros Heq.
  assert (Hmod : (off + (Z.of_nat j1 + 1) * step) `mod` portCount
                 = (off + (Z.of_nat j2 + 1) * step) `mod` portCount) by lia.
  assert (Hdiv : (portCount | step * (Z.of_nat j1 - Z.of_nat j2))).
  { apply Z.mod_divide; [done|].
    replace (step * (Z.of_nat j1 - Z.of_nat j2))
      with ((off + (Z.of_nat j1 + 1) * step) - (off + (Z.of_nat j2 + 1) * step))
      by lia.
    rewrite Zminus_mod, Hmod, Z.sub_diag. reflexivity. }
  apply Z.gauss in Hdiv; [|by rewrite Z.gcd_comm].
  destruct Hdiv as [q Hq]. rewrite portCount_val in *. nia.
Qed.

Lemma NoDup_ports (off : Z) (k : nat) :
  Z.gcd step portCount = 1 → Z.of_nat k ≤ portCount →
  NoDup (nth_port step off <$> seq 0 k).
Proof.
  intros Hgcd Hk. apply NoDup_fmap_2_strong; [|apply NoDup_seq].
  intros j1 j2 Hj1 Hj2. apply elem_of_seq in Hj1, Hj2.
  apply coprime_injective; [done|lia|lia].
Qed.

(** What a call returns, read off its dials: every dial but the last
    connected; and the result is decided by the last one. *)
Lemma attempts_result (dial : nat → Z → option error) (n : nat) :
  ∀ i off,
  let r := attempts step dial n i off in
  Forall (λ p, portBase ≤ p < portBase + portCount) (dialled r)
  ∧ (∀ j p, dialled r !! S j = Some p →
       ∃ q, dialled r !! j = Some q ∧ dial (i + j)%nat q = None)
  ∧ match result r with
    | (a, None) =>
        ∃ p e, last (dialled r) = Some p ∧ a = localhost p
               ∧ dial (i + length (dialled r) - 1)%nat p = Some e
               ∧ e ≠ Canceled
    | (a, Some e) =>
        a = ""
        ∧ (e = Canceled
             ∧ (∃ p, last (dialled r) = Some p
                     ∧ dial (i + length (dialled r) - 1)%nat p = Some Canceled)
           ∨ e = errorString "no ports available"
             ∧ length (dialled r) = n
             ∧ (∀ j p, dialled r !! j = Some p → dial (i + j)%nat p = None))
    end.
Proof.
  induction n as [|n IH]; intros i off.
  - cbn. split; [constructor|]. split; [done|]. split; [done|]. right. done.
  - cbn [attempts].
    set (port := portBase + uint64 (off + step) `mod` portCount).
    assert (Hr : portBase ≤ port < portBase + portCount) by apply port_in_range.
    destruct (dial i port) as [err|] eqn:Hdial.
    + destruct (decide (err = Canceled)) as [->|Hne];
        cbn [dialled result length last].
      * split; [by apply Forall_singleton|]. split; [done|]. split; [done|]. left.
        split; [done|]. exists port. split; [done|].
        by replace (i + 1 - 1)%nat with i by lia.
      * split; [by apply Forall_singleton|]. split; [done|].
        exists port, err. split; [done|]. split; [done|]. split; [|done].
        by replace (i + 1 - 1)%nat with i by lia.
    + cbn [dialled result].
      destruct (IH (S i) (uint64 (off + step))) as (Hrange & Hprev & Hres).
      cbn zeta in Hrange, Hprev, Hres.
      set (r := attempts step dial n (S i) (uint64 (off + step))) in *.
      split_and!.
      * by constructor.
      * intros [|j] p Hp.
        -- exists port. split; [done|]. by rewrite Nat.add_0_r.
        -- cbn in Hp. destruct (Hprev j p Hp) as (q & Hq & Hdq).
           exists q. split; [done|].
           by replace (i + S j)%nat with (S i + j)%nat by lia.
      * assert (Hlast : ∀ p, last (dialled r) = Some p →
                  last (port :: dialled r) = Some p).
        { intros p Hp. destruct (dialled r); [done|done]. }
        assert (Hpos : ∀ p, last (dialled r) = Some p →
                  (0 < length (dialled r))%nat).
        { intros p Hp. destruct (dialled r); [done|cbn; lia]. }
        destruct (result r) as [a [e|]].
        -- destruct Hres as [-> [(-> & p & Hp & Hd)|(-> & Hlen & Hall)]].
           ++ split; [done|]. left. split; [done|]. exists p.
              split; [by apply Hlast|]. cbn [length].
              pose proof (Hpos p Hp).
              by replace (i + S (length (dialled r)) - 1)%nat
                with (S i + length (dialled r) - 1)%nat by lia.
           ++ split; [done|]. right. split; [done|]. cbn [length].
              split; [by rewrite Hlen|].
              intros [|j] p Hp.
              ** injection Hp as <-. by rewrite Nat.add_0_r.
              ** cbn in Hp.
                 replace (i + S j)%nat with (S i + j)%nat by lia. by apply Hall.
        -- destruct Hres as (p & e & Hp & -> & Hd & Hne).
           exists p, e. split_and!; try done; [by apply Hlast|].
           cbn [length]. pose proof (Hpos p Hp).
           by replace (i + S (length (dialled r)) - 1)%nat
             with (S i + length (dialled r) - 1)%nat by lia.
Qed.

Lemma Random_unfold (dial : nat → Z → option error) (off : Z) :
  ∃ n : nat, Z.of_nat n = portCount
             ∧ Random step dial off = attempts step dial n 0 off.
Proof.
  exists (Z.to_nat portCount). split; [|reflexivity].
  apply Z2Nat.id. rewrite portCount_val. lia.
Qed.

Lemma Random_dialled (dial : nat → Z → option error) (off : Z) :
  0 ≤ off → 0 < step → off + portCount * step < 2 ^ 64 →
  let r := Random step dial off in
  Z.of_nat (length (dialled r)) ≤ portCount
  ∧ dialled r = nth_port step off <$> seq 0 (length (dialled r))
  ∧ offset r = off + Z.of_nat (length (dialled r)) * step.
Proof.
  intros Hoff Hstep Hwrap. cbv zeta.
  destruct (Random_unfold dial off) as (n & Hn & ->).
  destruct (attempts_dialled dial n 0 off) as (Hlen & Hd & Ho); [lia|lia|lia|].
  split; [lia|]. by split.
Qed.

(** The address returned is that of a port the call dialled. *)
Lemma Random_returned_port (dial : nat → Z → option error) (off : Z) (a : string) :
  result (Random step dial off) = (a, None) →
  ∃ p, a = localhost p ∧ p ∈ dialled (Random step dial off).
Proof.
  destruct (Random_unfold dial off) as (n & Hn & ->).
  set (r := attempts step dial n 0 off). intros Hres.
  destruct (attempts_result dial n 0 off) as (_ & _ & Hlast).
  fold r in Hlast. rewrite Hres in Hlast.
  destruct Hlast as (p & e & Hp & -> & _).
  exists p. split; [done|].
  rewrite last_lookup in Hp. by eapply list_elem_of_lookup_2.
Qed.

(** X16 (the address Random returns).  When [Random] returns an address it
    is 127.0.0.1:p with p from portBase up to portCount - 1 above it, and p
    is the port of the last dial made: the first dial of the call that
    failed, with an error other than [context.Canceled], whatever that error
    is.  Every dial before it connected. *)
Theorem Random_address (dial : nat → Z → option error) (off : Z) (a : string) :
  let r := Random step dial off in
  result r = (a, None) →
  ∃ p e, a = localhost p
         ∧ portBase ≤ p < portBase + portCount
         ∧ dialled r !! (length (dialled r) - 1)%nat = Some p
         ∧ dial (length (dialled r) - 1)%nat p = Some e ∧ e ≠ Canceled
         ∧ ∀ j q, (j < length (dialled r) - 1)%nat →
                  dialled r !! j = Some q → dial j q = None.
Proof.
  cbv zeta. destruct (Random_unfold dial off) as (n & Hn & ->).
  set (r := attempts step dial n 0 off). intros Hres.
  destruct (attempts_result dial n 0 off) as (Hrange & Hprev & Hlast).
  fold r in Hrange, Hprev, Hlast.
  rewrite Hres in Hlast. destruct Hlast as (p & e & Hp & -> & Hd & Hne).
  rewrite last_lookup in Hp.
  replace (pred (length (dialled r))) with (length (dialled r) - 1)%nat in Hp by lia.
  exists p, e. split_and!; try done.
  - rewrite Forall_forall in Hrange. apply Hrange.
    by eapply list_elem_of_lookup_2.
  - rewrite Forall_forall in Hrange. apply Hrange.
    by eapply list_elem_of_lookup_2.
  - intros j q Hj Hq.
    destruct (lookup_lt_is_Some_2 (dialled r) (S j)) as [q' Hq']; [lia|].
    destruct (Hprev j q' Hq') as (q'' & Hq'' & Hdq).
    rewrite Hq in Hq''. by injection Hq'' as <-.
Qed.

(** X17 (a coprime step reaches every port).  When the step has no factor
    in common with portCount and the counter does not wrap around, a call
    never dials a port twice; so when it gives up with "no ports available"
    it has dialled each of the portCount ports exactly once, and each of
    them accepted the connection. *)
Theorem Random_tries_every_port (dial : nat → Z → option error) (off : Z) :
  Z.gcd step portCount = 1 →
  0 ≤ off → 0 < step → off + portCount * step < 2 ^ 64 →
  let r := Random step dial off in
  NoDup (dialled r)
  ∧ (result r = ("", Some (errorString "no ports available")) →
     dialled r ≡ₚ seqZ portBase portCount
     ∧ ∀ j p, dialled r !! j = Some p → dial j p = None).
Proof.
  intros Hgcd Hoff Hstep Hwrap.
  destruct (Random_dialled dial off Hoff Hstep Hwrap) as (Hlen & Hd & _).
  revert Hlen Hd. cbv zeta.
  destruct (Random_unfold dial off) as (n & Hn & ->).
  set (r := attempts step dial n 0 off). intros Hlen Hd.
  assert (Hnd : NoDup (dialled r)).
  { rewrite Hd. by apply NoDup_ports. }
  split; [done|]. intros Hres.
  destruct (attempts_result dial n 0 off) as (Hrange & _ & Hlast).
  fold r in Hrange, Hlast.
  rewrite Hres in Hlast. destruct Hlast as [_ [[Hc _]|(_ & Hlenn & Hall)]]; [done|].
  split; [|done].
  apply submseteq_length_Permutation.
  - apply NoDup_submseteq; [done|]. intros p Hp. apply elem_of_seqZ.
    rewrite Forall_forall in Hrange. by apply Hrange.
  - rewrite length_seqZ. lia.
Qed.

(** X18 (a step that divides portCount).  portCount is 3 * 2^13 and
    [portStep] can return 3.  When a number [d] divides both the step and
    portCount and the counter does not wrap around during the call, every
    port the call dials is congruent to the counter's starting value modulo
    [d], counted from portBase: the other ports are never tried, and "no
    ports available" is returned although they were not dialled. *)
Theorem Random_residue_class (dial : nat → Z → option error) (off d : Z) :
  0 < d → (d | step) → (d | portCount) →
  0 ≤ off → 0 < step → off + portCount * step < 2 ^ 64 →
  let r := Random step dial off in
  Forall (λ p, (p - portBase) `mod` d = off `mod` d) (dialled r).
Proof.
  intros Hd [qs Hqs] [qc Hqc] Hoff Hstep Hwrap r.
  destruct (Random_dialled dial off Hoff Hstep Hwrap) as (_ & Hdl & _).
  fold r in Hdl. rewrite Hdl. apply Forall_fmap, Forall_forall.
  intros j _. cbn. unfold nth_port.
  set (x := off + (Z.of_nat j + 1) * step).
  replace (portBase + x `mod` portCount - portBase) with (x `mod` portCount) by lia.
  rewrite (Z.mod_eq x portCount) by done.
  replace (x - portCount * (x `div` portCount))
    with (x + (- (x `div` portCount) * qc) * d) by (rewrite Hqc; lia).
  rewrite Z.mod_add by lia.
  unfold x. replace (off + (Z.of_nat j + 1) * step)
    with (off + ((Z.of_nat j + 1) * qs) * d) by (rewrite Hqs; lia).
  by rewrite Z.mod_add by lia.
Qed.

(** X19 (two calls in a row).  [lastPortOffset] is kept between calls.
    With a step coprime to portCount and no wrap-around, a call that follows
    another one dials none of the ports the first one dialled, as long as
    the two calls made no more than portCount dials together: in
    particular the two addresses returned are different, even if the first
    port is still free. *)
Theorem Random_successive_distinct (dial1 dial2 : nat → Z → option error)
    (off : Z) :
  Z.gcd step portCount = 1 →
  0 ≤ off → 0 < step → off + 2 * portCount * step < 2 ^ 64 →
  let r1 := Random step dial1 off in
  let r2 := Random step dial2 (offset r1) in
  Z.of_nat (length (dialled r1) + length (dialled r2)) ≤ portCount →
  NoDup (dialled r1 ++ dialled r2)
  ∧ ∀ a1 a2, result r1 = (a1, None) → result r2 = (a2, None) → a1 ≠ a2.
Proof.
  intros Hgcd Hoff Hstep Hwrap. cbv zeta.
  pose proof portCount_val as Hpc.
  pose proof (Random_dialled dial1 off) as H1. cbv zeta in H1.
  pose proof (Random_returned_port dial1 off) as A1.
  set (r1 := Random step dial1 off) in *. clearbody r1.
  destruct H1 as (Hlen1 & Hd1 & Ho1); [lia|lia|nia|].
  pose proof (Random_dialled dial2 (offset r1)) as H2. cbv zeta in H2.
  pose proof (Random_returned_port dial2 (offset r1)) as A2.
  set (r2 := Random step dial2 (offset r1)) in *. clearbody r2.
  destruct H2 as (Hlen2 & Hd2 & _); [nia|lia|nia|].
  intros Htotal.
  set (k1 := length (dialled r1)) in *. set (k2 := length (dialled r2)) in *.
  clearbody k1 k2.
  assert (Hnd : NoDup (dialled r1 ++ dialled r2)).
  { rewrite Hd1, Hd2, Ho1.
    replace (nth_port step (off + Z.of_nat k1 * step) <$> seq 0 k2)
      with (nth_port step off <$> seq (0 + k1) k2).
    - rewrite <- fmap_app, <- seq_app. apply NoDup_ports; [done|lia].
    - rewrite Nat.add_0_l. replace k1 with (k1 + 0)%nat at 1 by lia.
      rewrite <- fmap_add_seq, <- list_fmap_compose.
      apply list_fmap_ext. intros ? j ?. cbn. apply nth_port_shift. }
  split; [done|]. intros a1 a2 Hr1 Hr2 Heq.
  destruct (A1 a1 Hr1) as (p1 & -> & Hp1).
  destruct (A2 a2 Hr2) as (p2 & -> & Hp2).
  assert (p1 = p2).
  { unfold localhost in Heq. apply (inj (String.app "127.0.0.1:")) in Heq.
    by apply (inj pretty) in Heq. }
  subst p2. apply NoDup_app in Hnd as (_ & Hdisj & _).
  by apply (Hdisj p1).
Qed.
End PortsRandom.

Lemma Random_address_witness :
  let dial := λ (i : nat) (_ : Z),
                if decide (i < 2) then None else Some DeadlineExceeded in
  ∃ p e, "127.0.0.1:8213" = Ports.localhost p
         ∧ (Ports.portBase ≤ p < Ports.portBase + Ports.portCount)%Z
         ∧ Ports.dialled (Ports.Random 7 dial 0) !! 2 = Some p
         ∧ dial 2 p = Some e.
Proof.
  intros dial.
  destruct (Random_address 7 dial 0 "127.0.0.1:8213" eq_refl)
    as (p & e & Ha & Hr & Hp & Hd & _).
  exists p, e. done.
Defined.

Lemma Random_tries_every_port_witness :
  let dial := λ (_ : nat) (_ : Z), @None error in
  NoDup (Ports.dialled (Ports.Random 7 dial 0)).
Proof.
  intros dial.
  apply (Random_tries_every_port 7 dial 0); [reflexivity|lia|lia|reflexivity].
Defined.

Lemma Random_residue_class_witness :
  let dial := λ (_ : nat) (_ : Z), @None error in
  Ports.portStep [2%Z] = Some 3%Z
  ∧ Forall (λ p, (p - Ports.portBase) `mod` 3 = 1 `mod` 3)%Z
      (Ports.dialled (Ports.Random 3 dial 1)).
Proof.
  intros dial. split; [reflexivity|].
  apply (Random_residue_class 3 dial 1 3);
    [lia | by exists 1%Z | by exists 8192%Z | lia | lia | reflexivity].
Defined.

Lemma Random_successive_distinct_witness :
  let dial := λ (_ : nat) (_ : Z), Some (errorString "connection refused") in
  let r1 := Ports.Random 7 dial 0 in
  let r2 := Ports.Random 7 dial (Ports.offset r1) in
  NoDup (Ports.dialled r1 ++ Ports.dialled r2)
  ∧ Ports.result r1 = ("127.0.0.1:8199", None)
  ∧ Ports.result r2 = ("127.0.0.1:8206", None).
Proof.
  intros dial r1 r2. split; [|split; reflexivity].
  apply (Random_successive_distinct 7 dial dial 0);
    [reflexivity|lia|lia|reflexivity|vm_compute; discriminate].
Defined.


(** * exp *)

Section ExpBackoff.
Local Open Scope Z_scope.

Lemma int64_small (z : Z) : - 2 ^ 63 ≤ z < 2 ^ 63 → Exp.int64 z = z.
Proof. intros Hz. unfold Exp.int64. rewrite Z.mod_small; lia. Qed.

Lemma pow2_pos (k : nat) : 1 ≤ 2 ^ Z.of_nat k.
Proof.
  pose proof (Z.pow_le_mono_r 2 0 (Z.of_nat k)) as H.
  rewrite Z.pow_0_r in H. apply H; lia.
Qed.

Lemma delays_closed (n : nat) : ∀ (m x : Z),
  0 ≤ x ≤ m → m < 2 ^ 62 →
  Exp.delays n (Exp.Backoff_ m x) =
    (λ k : nat, Z.min (x * 2 ^ Z.of_nat k) m) <$> seq 0 n.
Proof.
  induction n as [|n IH]; intros m x Hx Hm; [reflexivity|].
  cbn [Exp.delays Exp.Backoff Exp.next Exp.max seq fmap list_fmap].
  rewrite int64_small by lia.
  rewrite IH by lia. f_equal.
  - change (Z.of_nat 0) with 0. rewrite Z.pow_0_r. lia.
  - rewrite <- fmap_S_seq, <- list_fmap_compose.
    apply list_fmap_ext. intros _ k _. cbn.
    rewrite Nat2Z.inj_succ, Z.pow_succ_r by lia.
    pose proof (pow2_pos k).
    destruct (Z.min_spec (2 * x) m) as [[? ->]|[? ->]]; [f_equal; lia|].
    rewrite !Z.min_r; [done|nia|nia].
Qed.

(** X20 (the backoff).  Starting from a delay [x] that is neither negative
    nor above the maximum [m] (itself below 2^62 nanoseconds, so that
    doubling cannot overflow), the k-th call of [Backoff] returns
    min(x * 2^k, m): the delays double until they reach the maximum and
    stay there, and none is above the maximum. *)
Theorem Backoff_doubles_to_max (n : nat) (m x : Z) :
  0 ≤ x ≤ m → m < 2 ^ 62 →
  Exp.delays n (Exp.Backoff_ m x) =
    (λ k : nat, Z.min (x * 2 ^ Z.of_nat k) m) <$> seq 0 n
  ∧ Forall (λ d, 0 ≤ d ≤ m) (Exp.delays n (Exp.Backoff_ m x)).
Proof.
  intros Hx Hm. split; [by apply delays_closed|].
  rewrite delays_closed by done. apply Forall_fmap, Forall_forall.
  intros k _. cbn. pose proof (pow2_pos k). split; [|lia].
  apply Z.min_glb; nia.
Qed.

Lemma Backoff_doubles_to_max_witness :
  Exp.delays 9 (Exp.Backoff_ Exp.pollMax Exp.pollInitial) =
    (λ k : nat, Z.min (Exp.pollInitial * 2 ^ Z.of_nat k) Exp.pollMax) <$> seq 0 9
  ∧ Forall (λ d, 0 ≤ d ≤ Exp.pollMax)
      (Exp.delays 9 (Exp.Backoff_ Exp.pollMax Exp.pollInitial)).
Proof.
  apply (Backoff_doubles_to_max 9 Exp.pollMax Exp.pollInitial);
    [vm_compute; split; discriminate | reflexivity].
Defined.
End ExpBackoff.

Section ExpPoller.
Import Stdlib.Strings.Ascii.
Local Open Scope Z_scope.

Lemma buf_cons (c : ascii) (s : string) :
  Exp.buf (String c s) =
    String c (String.substring 0 31
                (s +:+ String.string_of_list_ascii (replicate 32 zero))).
Proof. reflexivity. Qed.

(** X21 (what counts as a reply).  [pokeHTTP] compares the first bytes it
    has read with "502 Bad Gateway " and "504 Gateway Timeout ".  A reply
    that begins with an HTTP status line begins with "HTTP/", so it matches
    neither, whatever its status code: the poke succeeds. *)
Theorem pokeHTTP_accepts_any_status_line
    (net : string → string → Exp.exchange) (addr host rest : string) :
  net addr (Exp.request host) = Exp.Responds ("HTTP/" +:+ rest) →
  Exp.pokeHTTP net addr host = None.
Proof.
  intros H. unfold Exp.pokeHTTP. rewrite H.
  change ("HTTP/" +:+ rest) with (String "H" ("TTP/" +:+ rest)).
  rewrite buf_cons. reflexivity.
Qed.

Lemma pokeHTTP_accepts_any_status_line_witness :
  let net := λ (_ _ : string),
    Exp.Responds ("HTTP/" +:+ "1.1 502 Bad Gateway" +:+ Exp.CRLF) in
  Exp.pokeHTTP net "localhost:8080" "localhost" = None.
Proof.
  intros net.
  apply (pokeHTTP_accepts_any_status_line net "localhost:8080" "localhost"
           ("1.1 502 Bad Gateway" +:+ Exp.CRLF)).
  reflexivity.
Defined.

Lemma poll_rounds (addr host : string) (pre : list Exp.round) :
  ∀ (b : Exp.exponentialBackoff) (r : Exp.round) (post : list Exp.round),
  Forall (λ r', Exp.after r' = Exp.Timer
                ∧ Exp.pokeHTTP (Exp.net r') addr host ≠ None) pre →
  Exp.pokeHTTP (Exp.net r) addr host = None ∨ Exp.after r = Exp.Done →
  Exp.poll addr host b (pre ++ r :: post) =
    (Some (match Exp.pokeHTTP (Exp.net r) addr host with
           | None => None
           | Some e =>
               Some (Errorf_w
                 "run.Poller cancelled waiting for poll target to be ready: last err: "
                 (Some e))
           end),
     Exp.delays (length pre) b).
Proof.
  induction pre as [|r' pre IH]; intros b r post Hpre Hr.
  - cbn [app Exp.poll length Exp.delays].
    destruct (Exp.pokeHTTP (Exp.net r) addr host) as [e|]; [|done].
    destruct Hr as [Hr|Hr]; [done|]. rewrite Hr. by destruct (Exp.Backoff b).
  - apply Forall_cons in Hpre as [[Hafter Hpoke] Hpre].
    cbn [app Exp.poll length Exp.delays].
    destruct (Exp.pokeHTTP (Exp.net r') addr host) as [e'|]; [|done].
    rewrite Hafter. destruct (Exp.Backoff b) as [d b'].
    by rewrite IH.
Qed.

(** X22 (the Poller).  With an address that [net.SplitHostPort] accepts,
    the Poller pokes first and looks at the context only after a poke has
    failed.  It returns at the first round in which the poke succeeds or in
    which, the poke having failed, it finds the context done: nil in the
    first case, also when the context was done all along; in the second an
    error that wraps the error of that last poke.  Until then it has waited
    10ms, 20ms, 40ms, ... between the pokes, never more than one second. *)
Theorem Poller_result (SplitHostPort : string → (string * string) + error)
    (addr host port : string) (pre : list Exp.round) (r : Exp.round)
    (post : list Exp.round) :
  SplitHostPort addr = inl (host, port) →
  Forall (λ r', Exp.after r' = Exp.Timer
                ∧ Exp.pokeHTTP (Exp.net r') addr host ≠ None) pre →
  Exp.pokeHTTP (Exp.net r) addr host = None ∨ Exp.after r = Exp.Done →
  ∃ res,
    Exp.Poller SplitHostPort addr (pre ++ r :: post) =
      (Some res,
       (λ k : nat, Z.min (Exp.pollInitial * 2 ^ Z.of_nat k) Exp.pollMax)
         <$> seq 0 (length pre))
    ∧ match Exp.pokeHTTP (Exp.net r) addr host with
      | None => res = None
      | Some e =>
          ∃ err, res = Some err ∧ Is err e = true
                 ∧ Error err =
                     "run.Poller cancelled waiting for poll target to be ready: last err: "
                     +:+ Error e
      end.
Proof.
  intros Hsplit Hpre Hr. unfold Exp.Poller. rewrite Hsplit, Hsplit.
  rewrite poll_rounds by done.
  rewrite delays_closed by (vm_compute; done).
  eexists. split; [reflexivity|].
  destruct (Exp.pokeHTTP (Exp.net r) addr host) as [e|]; [|done].
  eexists. split; [reflexivity|]. split; [apply Is_Errorf_w, Is_refl|reflexivity].
Qed.
End ExpPoller.

Lemma Poller_result_witness :
  let split := λ a : string,
    if decide (a = "localhost:8080")
    then @inl (string * string) error ("localhost", "8080")
    else inr (errorString "missing port in address") in
  let refused := Exp.Round (λ _ _, Exp.DialFails (errorString "connection refused")) in
  ∃ res,
    Exp.Poller split "localhost:8080"
      ([refused Exp.Timer; refused Exp.Timer] ++ refused Exp.Done :: []) =
      (Some res,
       (λ k : nat, Z.min (Exp.pollInitial * 2 ^ Z.of_nat k) Exp.pollMax)
         <$> seq 0 2)
    ∧ ∃ err, res = Some err
             ∧ Is err (Errorf_w "failed to dial: "
                         (Some (errorString "connection refused"))) = true.
Proof.
  intros split refused.
  destruct (Poller_result split "localhost:8080" "localhost" "8080"
              [refused Exp.Timer; refused Exp.Timer] (refused Exp.Done) [])
    as (res & Hres & err & -> & His & _).
  - reflexivity.
  - repeat constructor; discriminate.
  - by right.
  - exists (Some err). split; [exact Hres|]. by exists err.
Defined.

